(** * Linkerd2 control plane (stable-2.2.1): a shallow embedding

    The Go and JavaScript sources are embedded as Rocq functions and small
    transition systems:

    - [K8s]: resource-name tables of [pkg/k8s/k8s.go];
    - [Cmd]: the rate helpers of the CLI ([getSuccessRate], [getPercentTLS]);
    - [Profiles]: [protoToServiceProfile] and [RenderProto];
    - [Prometheus]: [queryProm] and the fan-out of [getPrometheusMetrics];
    - [Endpoints]: the Service Port Index and its listeners;
    - [GrpcServer]: request validation of [ListPods];
    - [ResourceDetail]: the dashboard's [loadFromServer] state update.

    Definitions come first, one module per source file; the properties
    follow in the second half of the file. *)

From Stdlib Require Import ZArith Ascii String Floats.SpecFloat.
From stdpp Require Import gmap strings list fin_maps relations sorting.

Local Open Scope string_scope.

(** Go's [error] values are modelled by their message. *)
Definition error := string.

(* ===================================================================== *)
(** ** pkg/k8s/k8s.go *)
(* ===================================================================== *)

Module K8s.

Definition All := "all".
Definition Authority := "authority".
Definition DaemonSet := "daemonset".
Definition Deployment := "deployment".
Definition Job := "job".
Definition Namespace := "namespace".
Definition Pod := "pod".
Definition ReplicationController := "replicationcontroller".
Definition ReplicaSet := "replicaset".
Definition Service := "service".
Definition ServiceProfile := "serviceprofile".
Definition StatefulSet := "statefulset".

(** special case k8s job label, to not conflict with Prometheus' job label *)
Definition l5dJob := "k8s_job".

Definition AllResources : list string :=
  [ Authority; DaemonSet; Deployment; Job; Namespace; Pod;
    ReplicationController; ReplicaSet; Service; ServiceProfile; StatefulSet ].

Definition StatAllResourceTypes : list string :=
  [ DaemonSet; StatefulSet; Deployment; ReplicationController; Pod; Service;
    Authority ].

(** [switch friendlyName { case a, b, c: ... }]: membership in the case list,
    cases tried from top to bottom. *)
Definition is_case (s : string) (cases : list string) : bool :=
  bool_decide (s ∈ cases).

Definition CanonicalResourceNameFromFriendlyName (friendlyName : string)
  : string * option error :=
  if is_case friendlyName ["au"; "authority"; "authorities"] then (Authority, None)
  else if is_case friendlyName ["ds"; "daemonset"; "daemonsets"] then (DaemonSet, None)
  else if is_case friendlyName ["deploy"; "deployment"; "deployments"] then (Deployment, None)
  else if is_case friendlyName ["job"; "jobs"] then (Job, None)
  else if is_case friendlyName ["ns"; "namespace"; "namespaces"] then (Namespace, None)
  else if is_case friendlyName ["po"; "pod"; "pods"] then (Pod, None)
  else if is_case friendlyName ["rc"; "replicationcontroller"; "replicationcontrollers"] then (ReplicationController, None)
  else if is_case friendlyName ["rs"; "replicaset"; "replicasets"] then (ReplicaSet, None)
  else if is_case friendlyName ["svc"; "service"; "services"] then (Service, None)
  else if is_case friendlyName ["sp"; "serviceprofile"; "serviceprofiles"] then (ServiceProfile, None)
  else if is_case friendlyName ["sts"; "statefulset"; "statefulsets"] then (StatefulSet, None)
  else if is_case friendlyName ["all"] then (All, None)
  else ("", Some ("cannot find Kubernetes canonical name from friendly name ["
                    ++ friendlyName ++ "]")).

Definition ShortNameFromCanonicalResourceName (canonicalName : string) : string :=
  if String.eqb canonicalName Authority then "au"
  else if String.eqb canonicalName DaemonSet then "ds"
  else if String.eqb canonicalName Deployment then "deploy"
  else if String.eqb canonicalName Job then "job"
  else if String.eqb canonicalName Namespace then "ns"
  else if String.eqb canonicalName Pod then "po"
  else if String.eqb canonicalName ReplicationController then "rc"
  else if String.eqb canonicalName ReplicaSet then "rs"
  else if String.eqb canonicalName Service then "svc"
  else if String.eqb canonicalName ServiceProfile then "sp"
  else if String.eqb canonicalName StatefulSet then "sts"
  else "".

Definition KindToL5DLabel (k8sKind : string) : string :=
  if String.eqb k8sKind Job then l5dJob else k8sKind.

(** *** URLs of the Kubernetes API *)

(** [strings.HasPrefix], [strings.HasSuffix] and [strings.TrimSuffix]. *)
Definition HasPrefix (s prefix : string) : bool := String.prefix prefix s.

Definition HasSuffix (s suffix : string) : bool :=
  (String.length suffix <=? String.length s)%nat
  && String.eqb (substring (String.length s - String.length suffix)
                           (String.length suffix) s) suffix.

Definition TrimSuffix (s suffix : string) : string :=
  if HasSuffix s suffix
  then substring 0 (String.length s - String.length suffix) s
  else s.

Section URLs.
(** [url.Parse] of the standard library, with its [*url.URL] results. *)
Context {URL : Type}.
Variable url_Parse : string -> error + URL.

Definition generateKubernetesURL (serverURL path : string)
  : option URL * option error :=
  if negb (HasPrefix path "/") then
    (None, Some ("path must start with a /, got [" ++ path ++ "]"))
  else
    match url_Parse (TrimSuffix serverURL "/" ++ path) with
    | inl err => (None, Some err)
    | inr u => (Some u, None)
    end.

Definition generateKubernetesAPIURLFor (serverURL namespace path : string)
  : option URL * option error :=
  if negb (HasPrefix path "/") then
    (None, Some ("path must start with a /, got [" ++ path ++ "]"))
  else
    let fullPath := "/api/v1/namespaces/" ++ namespace ++ path in
    generateKubernetesURL serverURL fullPath.

End URLs.

(** The friendly names that [CanonicalResourceNameFromFriendlyName] knows. *)
Definition friendlyNames : list string :=
  [ "au"; "authority"; "authorities"; "ds"; "daemonset"; "daemonsets";
    "deploy"; "deployment"; "deployments"; "job"; "jobs";
    "ns"; "namespace"; "namespaces"; "po"; "pod"; "pods";
    "rc"; "replicationcontroller"; "replicationcontrollers";
    "rs"; "replicaset"; "replicasets"; "svc"; "service"; "services";
    "sp"; "serviceprofile"; "serviceprofiles";
    "sts"; "statefulset"; "statefulsets"; "all" ].

End K8s.

(* ===================================================================== *)
(** ** cli/cmd/root.go: rate helpers *)
(* ===================================================================== *)

Module Cmd.
Local Open Scope Z_scope.

(** [uint64] values are integers in [0, 2^64); addition wraps around. *)
Definition is_uint64 (x : Z) : Prop := 0 <= x < 2 ^ 64.
Definition add_uint64 (a b : Z) : Z := (a + b) mod 2 ^ 64.

(** [float64] is IEEE 754 binary64 ([prec = 53], [emax = 1024]); the
    conversion [float64(u)] rounds to nearest, ties to even. *)
Definition float64 := spec_float.
Definition float64_zero : float64 := S754_zero false.
Definition float64_of_uint64 (u : Z) : float64 := binary_normalize 53 1024 u 0 false.
Definition float64_div (x y : float64) : float64 := SFdiv 53 1024 x y.

(** A float that is neither zero, infinite nor NaN. *)
Definition is_nonzero_finite (x : float64) : bool :=
  match x with S754_finite _ _ _ => true | _ => false end.

(** The counters of [pb.BasicStats] read by the helpers. *)
Record BasicStats := {
  SuccessCount : Z;
  FailureCount : Z;
  TlsRequestCount : Z
}.

Definition valid_BasicStats (stats : BasicStats) : Prop :=
  is_uint64 (SuccessCount stats) /\ is_uint64 (FailureCount stats)
  /\ is_uint64 (TlsRequestCount stats).

(** getSuccessRate calculates success rate from Public API BasicStats. *)
Definition getSuccessRate (success failure : Z) : float64 :=
  if add_uint64 success failure =? 0 then float64_zero
  else float64_div (float64_of_uint64 success)
                   (float64_of_uint64 (add_uint64 success failure)).

(** getPercentTLS calculates the percent of traffic that is TLS. *)
Definition getPercentTLS (stats : BasicStats) : float64 :=
  let reqTotal := add_uint64 (SuccessCount stats) (FailureCount stats) in
  if reqTotal =? 0 then float64_zero
  else float64_div (float64_of_uint64 (TlsRequestCount stats))
                   (float64_of_uint64 reqTotal).

(** 1.0 as a [float64]: 2^52 * 2^-52. *)
Definition float64_one : float64 := S754_finite false 4503599627370496 (-52).

(** *** The sanity checks on flag values

    The three regular expressions are of the form [^[class]+$]: they match
    the non-empty strings all of whose bytes are in the class. *)
Definition isAlphaNum (c : ascii) : bool :=
  let n := nat_of_ascii c in
  ((48 <=? n) && (n <=? 57) || (65 <=? n) && (n <=? 90)
   || (97 <=? n) && (n <=? 122))%nat.

Definition matchString (class : ascii -> bool) (s : string) : bool :=
  negb (String.eqb s "") && forallb class (list_ascii_of_string s).

(** [^[a-zA-Z0-9-]+$] *)
Definition alphaNumDash : string -> bool :=
  matchString (fun c => isAlphaNum c || Ascii.eqb c "-").

(** [^[\.a-zA-Z0-9-]+$] *)
Definition alphaNumDashDot : string -> bool :=
  matchString (fun c => Ascii.eqb c "." || isAlphaNum c || Ascii.eqb c "-").

(** [^[\./a-zA-Z0-9-:]+$] *)
Definition alphaNumDashDotSlashColon : string -> bool :=
  matchString (fun c => Ascii.eqb c "." || Ascii.eqb c "/" || isAlphaNum c
                        || Ascii.eqb c "-" || Ascii.eqb c ":").

(** [strings.Replace(s, old, new, 1)]: the leftmost occurrence of [old] in
    [s] is replaced by [new]; an empty [old] matches at the start. *)
Fixpoint string_drop (n : nat) (s : string) : string :=
  match n, s with
  | O, _ => s
  | S n', String _ s' => string_drop n' s'
  | S _, EmptyString => EmptyString
  end.

Fixpoint Replace1 (s old new : string) : string :=
  if String.prefix old s then new ++ string_drop (String.length old) s
  else match s with
       | EmptyString => EmptyString
       | String c s' => String c (Replace1 s' old new)
       end.

Definition optionalTLS : string := "optional".
Definition defaultDockerRegistry : string := "gcr.io/linkerd-io".
Definition defaultKeepaliveMs : Z := 10000.

(** proxyConfigOptions holds values for command line flags that apply to both
    the install and inject commands. *)
Record proxyConfigOptions := {
  linkerdVersion : string;
  proxyImage : string;
  initImage : string;
  dockerRegistry : string;
  imagePullPolicy : string;
  inboundPort : Z;
  outboundPort : Z;
  ignoreInboundPorts : list Z;
  ignoreOutboundPorts : list Z;
  proxyUID : Z;
  proxyLogLevel : string;
  proxyAPIPort : Z;
  proxyControlPort : Z;
  proxyMetricsPort : Z;
  proxyCPURequest : string;
  proxyMemoryRequest : string;
  tls : string;
  disableExternalProfiles : bool;
  noInitContainer : bool;
  proxyOutboundCapacity : gmap string Z
}.

(** The double quote character, for messages that quote a value. *)
Definition dquote : string := String "034" EmptyString.

Section ProxyConfig.
(** [version.Version], and whether [k8sResource.ParseQuantity] accepts a
    string. *)
Variable version_Version : string.
Variable ParseQuantity_ok : string -> bool.

Definition newProxyConfigOptions : proxyConfigOptions :=
  {| linkerdVersion := version_Version;
     proxyImage := defaultDockerRegistry ++ "/proxy";
     initImage := defaultDockerRegistry ++ "/proxy-init";
     dockerRegistry := defaultDockerRegistry;
     imagePullPolicy := "IfNotPresent";
     inboundPort := 4143;
     outboundPort := 4140;
     ignoreInboundPorts := [];
     ignoreOutboundPorts := [];
     proxyUID := 2102;
     proxyLogLevel := "warn,linkerd2_proxy=info";
     proxyAPIPort := 8086;
     proxyControlPort := 4190;
     proxyMetricsPort := 4191;
     proxyCPURequest := "";
     proxyMemoryRequest := "";
     tls := "";
     disableExternalProfiles := false;
     noInitContainer := false;
     proxyOutboundCapacity := ∅ |}.

Definition validate (options : proxyConfigOptions) : option error :=
  if negb (alphaNumDashDot (linkerdVersion options)) then
    Some (linkerdVersion options ++ " is not a valid version")
  else if negb (alphaNumDashDotSlashColon (dockerRegistry options)) then
    Some (dockerRegistry options
          ++ " is not a valid Docker registry. The url can contain only letters, numbers, dash, dot, slash and colon")
  else if negb (String.eqb (imagePullPolicy options) "Always")
          && negb (String.eqb (imagePullPolicy options) "IfNotPresent")
          && negb (String.eqb (imagePullPolicy options) "Never") then
    Some "--image-pull-policy must be one of: Always, IfNotPresent, Never"
  else if negb (String.eqb (proxyCPURequest options) "")
          && negb (ParseQuantity_ok (proxyCPURequest options)) then
    Some ("Invalid cpu request '" ++ proxyCPURequest options
          ++ "' for --proxy-cpu flag")
  else if negb (String.eqb (proxyMemoryRequest options) "")
          && negb (ParseQuantity_ok (proxyMemoryRequest options)) then
    Some ("Invalid memory request '" ++ proxyMemoryRequest options
          ++ "' for --proxy-memory flag")
  else if negb (String.eqb (tls options) "")
          && negb (String.eqb (tls options) optionalTLS) then
    Some ("--tls must be blank or set to " ++ dquote ++ optionalTLS ++ dquote)
  else None.

End ProxyConfig.

Definition enableTLS (options : proxyConfigOptions) : bool :=
  String.eqb (tls options) optionalTLS.

Definition taggedProxyImage (options : proxyConfigOptions) : string :=
  let image :=
    Replace1 (proxyImage options) defaultDockerRegistry (dockerRegistry options) in
  image ++ ":" ++ linkerdVersion options.

Definition taggedProxyInitImage (options : proxyConfigOptions) : string :=
  let image :=
    Replace1 (initImage options) defaultDockerRegistry (dockerRegistry options) in
  image ++ ":" ++ linkerdVersion options.

(** *** Rendering of the stat tables *)

Record statOptionsBase := {
  stat_namespace : string;
  timeWindow : string;
  outputFormat : string
}.

Definition newStatOptionsBase : statOptionsBase :=
  {| stat_namespace := "default"; timeWindow := "1m"; outputFormat := "" |}.

Definition validateOutputFormat (o : statOptionsBase) : option error :=
  if String.eqb (outputFormat o) "table" || String.eqb (outputFormat o) "json"
     || String.eqb (outputFormat o) ""
  then None
  else Some "--output currently only supports table and json".

(** The line feed, and [strings.Repeat(" ", n)]. *)
Definition newline : string := String "010" EmptyString.

Fixpoint spaces (n : nat) : string :=
  match n with
  | O => EmptyString
  | S n' => String " " (spaces n')
  end.

(** [strings.Replace(s, old, new, -1)] for a non-empty [old]: the
    occurrences of [old] are replaced from left to right, the search going
    on behind each occurrence. [skip] counts the bytes of an occurrence
    still to be passed over. *)
Fixpoint ReplaceAll_from (skip : nat) (s old new : string) : string :=
  match s with
  | EmptyString => EmptyString
  | String c s' =>
      match skip with
      | S k => ReplaceAll_from k s' old new
      | O =>
          if String.prefix old s
          then new ++ ReplaceAll_from (String.length old - 1) s' old new
          else String c (ReplaceAll_from 0 s' old new)
      end
  end.

Definition ReplaceAll (s old new : string) : string := ReplaceAll_from 0 s old new.

Section RenderStats.
(** The width of the left padding of the tables, a constant of stat.go. *)
Variable padding : nat.

(** [None] stands for the run-time panic of a slice expression out of
    range. *)
Definition renderStats (buffer : string) (options : statOptionsBase)
  : option string :=
  if String.eqb (outputFormat options) "json" then Some buffer
  else
    (* strip left padding on the first column *)
    if (String.length buffer <? padding)%nat then None
    else
      let out := string_drop padding buffer in
      Some (ReplaceAll out (newline ++ spaces padding) newline).

(** A table as the writers lay it out: every row behind the padding and
    closed by a line feed. *)
Definition padded_table (rows : list string) : string :=
  fold_right (fun row rest => spaces padding ++ row ++ newline ++ rest) "" rows.

Definition plain_table (rows : list string) : string :=
  fold_right (fun row rest => row ++ newline ++ rest) "" rows.

End RenderStats.

(** A string without line feed. *)
Definition single_line (row : string) : bool :=
  forallb (fun c => negb (Ascii.eqb c "010")) (list_ascii_of_string row).

(** Options for examples: a private registry, TLS optional. *)
Definition example_options : proxyConfigOptions :=
  {| linkerdVersion := "stable-2.2.1";
     proxyImage := "gcr.io/linkerd-io/proxy";
     initImage := "gcr.io/linkerd-io/proxy-init";
     dockerRegistry := "my.registry:5000/mesh";
     imagePullPolicy := "Always"; inboundPort := 4143; outboundPort := 4140;
     ignoreInboundPorts := []; ignoreOutboundPorts := []; proxyUID := 2102;
     proxyLogLevel := "warn"; proxyAPIPort := 8086; proxyControlPort := 4190;
     proxyMetricsPort := 4191; proxyCPURequest := ""; proxyMemoryRequest := "";
     tls := "optional"; disableExternalProfiles := false;
     noInitContainer := false; proxyOutboundCapacity := ∅ |}.

End Cmd.

(* ===================================================================== *)
(** ** pkg/profiles/proto.go *)
(* ===================================================================== *)

Module Profiles.

(** *** The parsed definition (package [proto] of emicklei)

    [Parent] of an RPC is the node it was declared in; only the case the
    handler looks at, a service, carries data. *)
Inductive ParentRef :=
| ParentService (Name : string)
| ParentOther.

(** Nodes of a parsed definition. [Other] stands for every node kind the
    handler has no case for (syntax, import, option, comment, message, enum,
    field, ...), with its child elements. *)
#[warnings="-register-all"]
Inductive Visitee :=
| Package (Name : string)
| Service (Name : string) (Elements : list Visitee)
| RPC (Name : string) (Parent : ParentRef) (Elements : list Visitee)
| Other (Elements : list Visitee).

Definition Proto := list Visitee.

(** [proto.Walk]: every element is handed to the handler, then its own
    elements are walked, depth first and in order. *)
Section Walk.
Context {S : Type} (handler : S -> Visitee -> S).

Fixpoint walk_element (v : Visitee) (st : S) {struct v} : S :=
  let walk_elements :=
    fix walk_elements (l : list Visitee) (st : S) {struct l} : S :=
      match l with
      | [] => st
      | e :: l' => walk_elements l' (walk_element e st)
      end in
  let st' := handler st v in
  match v with
  | Package _ => st'
  | Service _ els => walk_elements els st'
  | RPC _ _ els => walk_elements els st'
  | Other els => walk_elements els st'
  end.

Fixpoint walk (container : list Visitee) (st : S) : S :=
  match container with
  | [] => st
  | e :: l' => walk l' (walk_element e st)
  end.

End Walk.

(** *** regexp.QuoteMeta *)

Definition specialBytes : list ascii := list_ascii_of_string "\.+*?()|[]{}^$".

Definition special (b : ascii) : bool := bool_decide (b ∈ specialBytes).

Fixpoint QuoteMeta (s : string) : string :=
  match s with
  | EmptyString => EmptyString
  | String b s' =>
      if special b then String "\" (String b (QuoteMeta s'))
      else String b (QuoteMeta s')
  end.

(** *** The profile resource *)

Record RequestMatch := { Method : string; PathRegex : string }.
Record RouteSpec := { Name : string; Condition : RequestMatch }.
Record ObjectMeta := { ObjectMeta_Name : string; ObjectMeta_Namespace : string }.
Record TypeMeta := { Kind : string; APIVersion : string }.
Record ServiceProfileSpec := { Routes : list RouteSpec }.
Record ServiceProfile := {
  SP_ObjectMeta : ObjectMeta;
  SP_TypeMeta : TypeMeta;
  Spec : ServiceProfileSpec
}.

Definition MethodPost := "POST".

(** The handler's captured variables: [pkg] and [routes]. *)
Record handlerState := { pkg : string; routes : list RouteSpec }.

Definition handle (st : handlerState) (visitee : Visitee) : handlerState :=
  match visitee with
  | Package name => {| pkg := name; routes := routes st |}
  | RPC name (ParentService service) _ =>
      let route :=
        {| Name := name;
           Condition :=
             {| Method := MethodPost;
                PathRegex :=
                  QuoteMeta ("/" ++ pkg st ++ "." ++ service ++ "/" ++ name) |} |} in
      {| pkg := pkg st; routes := routes st ++ [route] |}
  | _ => st
  end.

Section Render.
(** Parts of the package that the functions below use:
    the [ServiceProfileMeta] constant, [readFile] and [writeProfile], and
    the parser itself. [World] is everything outside the program that a run
    could consult: the file system, standard input, the cluster, the clock.
    The functions of the libraries are handed the world as well: nothing in
    this package keeps them from consulting it. *)
Context {World : Type}.
Variable ServiceProfileMeta : TypeMeta.
Variable readFile : World -> string -> error + string.
Variable Parse : World -> string -> error + Proto.
Variable writeProfile : World -> ServiceProfile -> error + string.

(** A [*proto.Parser] is modelled by what its [Parse] method returns. *)
Definition protoToServiceProfile (parser : error + Proto) (namespace name : string)
  : option ServiceProfile * option error :=
  match parser with
  | inl err => (None, Some err)
  | inr definition =>
      let st := walk handle definition {| pkg := ""; routes := [] |} in
      (Some {| SP_ObjectMeta :=
                 {| ObjectMeta_Name := name ++ "." ++ namespace ++ ".svc.cluster.local";
                    ObjectMeta_Namespace := namespace |};
               SP_TypeMeta := ServiceProfileMeta;
               Spec := {| Routes := routes st |} |},
       None)
  end.


End Render.

(** Names of the methods whose parent is a service, anywhere in a tree, in
    the order of the walk. *)
Fixpoint service_methods (v : Visitee) : list string :=
  let here :=
    match v with
    | RPC name (ParentService _) _ => [name]
    | _ => []
    end in
  match v with
  | Package _ => here
  | Service _ els | RPC _ _ els | Other els =>
      (here ++ concat (map service_methods els))%list
  end.

(** Reading an escaped string back: a backslash makes the next byte
    literal. *)
Fixpoint unquote (s : string) : string :=
  match s with
  | EmptyString => EmptyString
  | String b s' =>
      if Ascii.eqb b "\" then
        match s' with
        | EmptyString => EmptyString
        | String b' s'' => String b' (unquote s'')
        end
      else String b (unquote s')
  end.

(** What a step of the walk adds to the routes: routes named [names], all
    with method POST and a path that is a quoted [/<package>.<service>/<name>]. *)
Definition adds_routes (st st' : handlerState) (names : list string) : Prop :=
  exists rs,
    routes st' = (routes st ++ rs)%list
    /\ Name <$> rs = names
    /\ Forall (fun r => Method (Condition r) = "POST"
                        /\ exists package service,
                             PathRegex (Condition r)
                             = QuoteMeta ("/" ++ package ++ "." ++ service
                                          ++ "/" ++ Name r)) rs.

(** *** What the derivation is specified to produce *)

Definition route_of (package service method : string) : RouteSpec :=
  {| Name := method;
     Condition :=
       {| Method := "POST";
          PathRegex := QuoteMeta ("/" ++ package ++ "." ++ service ++ "/" ++ method) |} |}.

(** Names of the methods declared in a service block, in declaration order. *)
Definition methods_of (block : list Visitee) : list string :=
  omap (fun e => match e with RPC m _ _ => Some m | _ => None end) block.

(** Name of the last package declaration among [before]; empty if none. *)
Definition last_package (before : list Visitee) : string :=
  default "" (last (omap (fun e => match e with Package p => Some p | _ => None end) before)).

(** One route per method of each service block, the package being the last
    one declared before the block. *)
Definition spec_routes (definition : Proto) : list RouteSpec :=
  mjoin (imap (fun i e =>
                 match e with
                 | Service s block =>
                     route_of (last_package (take i definition)) s <$> methods_of block
                 | _ => []
                 end) definition).

(** The routes of a definition by recursion over its top level, the
    package declared last being carried along. *)
Fixpoint routes_from (package : string) (top : list Visitee) : list RouteSpec :=
  match top with
  | [] => []
  | Package p :: rest => routes_from p rest
  | Service s block :: rest =>
      (route_of package s <$> methods_of block) ++ routes_from package rest
  | _ :: rest => routes_from package rest
  end.

(** *** Shape of a definition that the parser returns

    Package declarations and service blocks stand at the top level; a
    service block holds methods, whose [Parent] is the block, and options
    or comments; everything else holds neither packages, services nor
    methods. *)
Fixpoint plain (v : Visitee) : bool :=
  match v with
  | Other els => forallb plain els
  | _ => false
  end.

Definition wf_service_element (service : string) (e : Visitee) : bool :=
  match e with
  | RPC _ (ParentService s) els => String.eqb s service && forallb plain els
  | Other els => forallb plain els
  | _ => false
  end.

Definition wf_top (e : Visitee) : bool :=
  match e with
  | Package _ => true
  | Service s block => forallb (wf_service_element s) block
  | Other els => forallb plain els
  | RPC _ _ _ => false
  end.

Definition wf_parsed (definition : Proto) : bool := forallb wf_top definition.

(** The definition of the example: package [emojivoto.v1], service
    [VotingService] with the single method [VoteFish]. *)
Definition emojivoto_definition : Proto :=
  [ Other [];
    Package "emojivoto.v1";
    Service "VotingService"
      [ RPC "VoteFish" (ParentService "VotingService") [] ] ].




Definition emojivoto_parsed : Proto :=
  [ Package "emojivoto.v1";
    Service "VotingService"
      [ RPC "VoteFish" (ParentService "VotingService") [] ] ].



Definition example_Meta : TypeMeta :=
  {| Kind := "ServiceProfile"; APIVersion := "linkerd.io/v1alpha1" |}.

End Profiles.

(* ===================================================================== *)
(** ** pkg/k8s/portforward.go *)
(* ===================================================================== *)

Module PortForwarding.

(** The fields of [v1.Pod] that are read. *)
Record Pod := { Pod_Name : string; Pod_Phase : string }.

Definition PodRunning : string := "Running".

(** The loop over the pods: the name of the first running pod whose name
    starts with [deployName]; the empty string if there is none. *)
Fixpoint findPodName (pods : list Pod) (deployName : string) : string :=
  match pods with
  | [] => ""
  | pod :: pods' =>
      if String.eqb (Pod_Phase pod) PodRunning then
        if K8s.HasPrefix (Pod_Name pod) deployName then Pod_Name pod
        else findPodName pods' deployName
      else findPodName pods' deployName
  end.

(** A pod that the loop accepts. *)
Definition eligible (deployName : string) (pod : Pod) : Prop :=
  Pod_Phase pod = PodRunning /\ K8s.HasPrefix (Pod_Name pod) deployName = true.

Section NewPortForward.
(** The client libraries: configurations, client sets and clients, the
    listing of the pods of a namespace, the URL of the port-forward
    sub-resource of a pod, and the outcome of binding a free local port. *)
Context {Config Clientset Client URL : Type}.
Variable GetConfig : string -> string -> error + Config.
Variable NewForConfig : Config -> error + Clientset.
Variable NewClient : Config -> error + Client.
Variable GetPodsByNamespace : Client -> string -> error + list Pod.
Variable portforwardURL : Clientset -> string -> string -> URL.
Variable getLocalPort : error + Z.

Record PortForward := {
  method : string;
  url : URL;
  localPort : Z;
  remotePort : Z;
  emitLogs : bool;
  config : Config
}.

Definition NewPortForward (configPath kubeContext namespace deployName : string)
    (localPort remotePort : Z) (emitLogs : bool)
  : option PortForward * option error :=
  match GetConfig configPath kubeContext with
  | inl err => (None, Some err)
  | inr config =>
  match NewForConfig config with
  | inl err => (None, Some err)
  | inr clientset =>
  match NewClient config with
  | inl err => (None, Some err)
  | inr client =>
  match GetPodsByNamespace client namespace with
  | inl err => (None, Some err)
  | inr pods =>
      let podName := findPodName pods deployName in
      if String.eqb podName "" then
        (None, Some ("no running pods found for " ++ deployName))
      else
        let req := portforwardURL clientset namespace podName in
        match (if (localPort =? 0)%Z then getLocalPort else inr localPort) with
        | inl err => (None, Some err)
        | inr localPort =>
            (Some {| method := "POST"; url := req; localPort := localPort;
                     remotePort := remotePort; emitLogs := emitLogs;
                     config := config |},
             None)
        end
  end end end end.

End NewPortForward.

(** The pods of an example namespace. *)
Definition example_pods : list Pod :=
  [ {| Pod_Name := "linkerd-web-5c8b5d9c4-abcde"; Pod_Phase := "Pending" |};
    {| Pod_Name := "linkerd-controller-7d9f-xyz12"; Pod_Phase := "Running" |};
    {| Pod_Name := "linkerd-web-5c8b5d9c4-fghij"; Pod_Phase := "Running" |};
    {| Pod_Name := "linkerd-web-5c8b5d9c4-klmno"; Pod_Phase := "Running" |} ].

End PortForwarding.

(* ===================================================================== *)
(** ** controller/api/public/prometheus.go *)
(* ===================================================================== *)

Module Prometheus.

Definition promType := string.

Definition promRequests : promType := "QUERY_REQUESTS".
Definition promActualRequests : promType := "QUERY_ACTUAL_REQUESTS".
Definition promLatencyP50 : promType := "0.5".
Definition promLatencyP95 : promType := "0.95".
Definition promLatencyP99 : promType := "0.99".

Section Fanout.
(** [Vector] is [model.Vector]. *)
Context {Vector : Type}.

(** [model.Value]: a vector, or a value of another type (scalar, matrix,
    string, none) of which only the name of the type is used. *)
Inductive Value :=
| ValVector (v : Vector)
| ValOther (typeName : string).

Record promResult := {
  prom : promType;
  vec : option Vector;
  err : option error
}.

(** The metrics backend, [s.prometheusAPI.Query]. Its answer may change from
    one call to the next, so it is indexed by the sub-query that calls it
    (sub-queries are numbered in launch order). [Sprintf] is [fmt.Sprintf]. *)
Variable prometheusAPI_Query : nat -> string -> error + Value.
Variable Sprintf : string -> list string -> string.

Definition queryProm (call : nat) (query : string) : option Vector * option error :=
  match prometheusAPI_Query call query with
  | inl err => (None, Some err)
  | inr (ValOther typeName) =>
      (None, Some ("Unexpected query result type (expected Vector): " ++ typeName))
  | inr (ValVector v) => (Some v, None)
  end.

Variable requestQueryTemplates : gmap promType string.
Variables latencyQueryTemplate labels timeWindow groupBy : string.

(** The message that each goroutine sends on [resultChan]. *)
Definition requestGoroutine (call : nat) (typ : promType) (template : string)
  : promResult :=
  let requestsQuery := Sprintf template [labels; timeWindow; groupBy] in
  let '(resultVector, err) := queryProm call requestsQuery in
  {| prom := typ; vec := resultVector; err := err |}.

Definition latencyGoroutine (call : nat) (quantile : promType) : promResult :=
  let latencyQuery :=
    Sprintf latencyQueryTemplate [quantile; labels; timeWindow; groupBy] in
  let '(latencyResult, err) := queryProm call latencyQuery in
  {| prom := quantile; vec := latencyResult; err := err |}.

Definition quantiles : list promType :=
  [promLatencyP50; promLatencyP95; promLatencyP99].

(** kick off asynchronous queries: request count queries + 3 latency queries *)
Definition launched : list promResult :=
  imap (fun k '(pt, requestQueryTemplate) =>
          requestGoroutine k pt requestQueryTemplate)
       (map_to_list requestQueryTemplates)
  ++ imap (fun k quantile =>
             latencyGoroutine (size requestQueryTemplates + k) quantile)
          quantiles.

(** State of a call: the goroutines that have not yet handed over their
    message ([resultChan] is unbuffered, a goroutine stays blocked in its send
    until the loop receives from it), the loop counter, [err], [results], and
    the messages received so far, in order. *)
Record state := {
  senders : list promResult;
  i : nat;
  loop_err : option error;
  results : list promResult;
  received : list promResult
}.

Definition init : state :=
  {| senders := launched; i := 0; loop_err := None; results := [];
     received := [] |}.

(** Number of iterations of the receive loop. *)
Definition iterations : nat := length quantiles + size requestQueryTemplates.

(** One iteration of the loop, receiving [result] from the [k]-th blocked
    goroutine. *)
Definition receive (k : nat) (result : promResult) (st : state) : state :=
  {| senders := delete k (senders st);
     i := S (i st);
     loop_err := match err result with
                 | Some e => Some e
                 | None => loop_err st
                 end;
     results := match err result with
                | Some _ => results st
                | None => results st ++ [result]
                end;
     received := received st ++ [result] |}.

(** The scheduler picks any blocked goroutine. *)
Inductive step : state -> state -> Prop :=
| step_receive st k result :
    i st < iterations ->
    senders st !! k = Some result ->
    step st (receive k result st).

Definition reachable (st : state) : Prop := rtc step init st.

(** What the call returns once the loop is over; [None] while it runs. *)
Definition returned (st : state)
  : option (option (list promResult) * option error) :=
  if decide (i st < iterations) then None
  else match loop_err st with
       | Some e => Some (None, Some e)
       | None => Some (Some (results st), None)
       end.

(** Running the call under a given schedule: the [k]-th element of the
    schedule is the position, among the goroutines still blocked, of the one
    served by the [k]-th receive. *)
Definition try_receive (k : nat) (st : state) : option state :=
  if decide (i st < iterations) then
    match senders st !! k with
    | Some result => Some (receive k result st)
    | None => None
    end
  else None.

Fixpoint run (schedule : list nat) (st : state) : option state :=
  match schedule with
  | [] => Some st
  | k :: schedule' =>
      match try_receive k st with
      | Some st' => run schedule' st'
      | None => None
      end
  end.

Definition getPrometheusMetrics (schedule : list nat)
  : option (option (list promResult) * option error) :=
  match run schedule init with
  | Some st => returned st
  | None => None
  end.

(** The errors among the messages received, in order of reception. *)
Definition errors_received (st : state) : list error :=
  omap err (received st).

(** What holds of the loop variables at every point of an execution: the
    messages received and the goroutines still blocked are together the ones
    launched; [i] counts the messages received; [err] is the last error
    received and [results] the successful messages, in order. *)
Record inv (st : state) : Prop := {
  inv_perm : received st ++ senders st ≡ₚ launched;
  inv_count : i st = length (received st);
  inv_err : loop_err st = last (errors_received st);
  inv_results : results st = filter (fun r => err r = None) (received st)
}.

End Fanout.

(** A backend for examples: the first two sub-queries launched fail, with
    different errors; the others return an empty vector. *)
Definition failing_Query (call : nat) (query : string) : error + @Value (list Z) :=
  match call with
  | 0 => inl "connection refused"
  | 1 => inl "context deadline exceeded"
  | _ => inr (ValVector [])
  end.

Definition healthy_Query (call : nat) (query : string) : error + @Value (list Z) :=
  inr (ValVector [Z.of_nat call]).

Definition example_Sprintf (template : string) (args : list string) : string :=
  template ++ String.concat "," args.

Definition example_templates : gmap promType string :=
  {[ promRequests := "requests%s%s%s" ]}.

End Prometheus.

(* ===================================================================== *)
(** ** controller/api/proxy: endpoint listeners and the Service Port Index *)
(* ===================================================================== *)

Module Endpoints.

(** An address delivered to listeners: the TCP address and, when the
    address is meshed, the namespace and name of its pod. *)
Record updateAddress := {
  Ip : N;
  Port : N;
  pod : option (string * string)
}.

#[global] Instance updateAddress_eq_dec : EqDecision updateAddress.
Proof. solve_decision. Defined.

#[global] Instance updateAddress_countable : Countable updateAddress.
Proof.
  refine (inj_countable' (fun a => (Ip a, Port a, pod a))
            (fun t => {| Ip := t.1.1; Port := t.1.2; pod := t.2 |}) _).
  by intros [].
Defined.

(** *** test_helper.go: the collecting listener *)

Record collectUpdateListener := {
  added : list updateAddress;
  removed : list updateAddress;
  noEndpointsCalled : bool;
  noEndpointsExists : bool
}.

Definition newCollectUpdateListener : collectUpdateListener :=
  {| added := []; removed := []; noEndpointsCalled := false;
     noEndpointsExists := false |}.

Definition Update (add remove : list updateAddress) (c : collectUpdateListener)
  : collectUpdateListener :=
  {| added := added c ++ add;
     removed := removed c ++ remove;
     noEndpointsCalled := noEndpointsCalled c;
     noEndpointsExists := noEndpointsExists c |}.

Definition NoEndpoints (exists_ : bool) (c : collectUpdateListener)
  : collectUpdateListener :=
  {| added := added c;
     removed := removed c;
     noEndpointsCalled := true;
     noEndpointsExists := exists_ |}.

(** *** The Service Port Index and the Listener Registry *)

(** What a listener is sent: a call of [Update] or of [NoEndpoints]. *)
Inductive notification :=
| NUpdate (add remove : list updateAddress)
| NNoEndpoints (exists_ : bool).

(** Modelled from the spec: an entry of the Listener Registry (the registry
    is absent from the sources). Each listener is served by an execution
    unit of its own: the index hands a notification to the unit, which calls
    the listener later, one notification at a time and in the order handed
    over. [delivered] are the calls made on the listener since it
    subscribed, oldest first; [queue] are the notifications handed over and
    not yet delivered. *)
Record subscription := {
  listener : collectUpdateListener;
  delivered : list notification;
  queue : list notification
}.

(** A call of the listener. *)
Definition deliver (n : notification) (sub : subscription) : subscription :=
  {| listener := match n with
                 | NUpdate add remove => Update add remove (listener sub)
                 | NNoEndpoints e => NoEndpoints e (listener sub)
                 end;
     delivered := delivered sub ++ [n];
     queue := queue sub |}.

(** Modelled from the spec: a notification is handed to the execution unit
    of the listener; the index does not wait for the listener. *)
Definition enqueue (n : notification) (sub : subscription) : subscription :=
  {| listener := listener sub;
     delivered := delivered sub;
     queue := queue sub ++ [n] |}.

(** Modelled from the spec: the execution unit of a listener delivers the
    oldest notification that waits, if any. *)
Definition deliverNext (sub : subscription) : subscription :=
  match queue sub with
  | [] => sub
  | n :: rest =>
      deliver n {| listener := listener sub; delivered := delivered sub;
                   queue := rest |}
  end.

(** Modelled from the spec: the ServicePort entry of the index (absent from
    the sources): the current address set, whether the service resource is
    present, and the listeners by subscription handle. *)
Record servicePort := {
  addresses : gset updateAddress;
  serviceExists : bool;
  listeners : gmap nat subscription
}.

Definition newServicePort : servicePort :=
  {| addresses := ∅; serviceExists := false; listeners := ∅ |}.

(** Modelled from the spec: the diff of the Service Port Index (absent from
    the sources). Addresses only in the old set form the removed batch,
    addresses only in the new set the added batch. *)
Definition diffUpdateAddresses (old new : gset updateAddress)
  : list updateAddress * list updateAddress :=
  (elements (new ∖ old), elements (old ∖ new)).

(** Modelled from the spec: [Notify] and [NotifyExistence] of the registry
    (absent from the sources); the notification is handed to the execution
    unit of every listener of the entry. *)
Definition notifyAll (n : notification) (sp : servicePort) : servicePort :=
  {| addresses := addresses sp;
     serviceExists := serviceExists sp;
     listeners := enqueue n <$> listeners sp |}.

(** Modelled from the spec: the endpoint-subset update of the Service Port
    Index. The recomputed address set is diffed against the stored one and
    the two batches go to every listener; a transition between empty and
    non-empty is followed by an existence notification. *)
Definition updateAddresses (new : gset updateAddress) (sp : servicePort)
  : servicePort :=
  let old := addresses sp in
  let '(add, remove) := diffUpdateAddresses old new in
  let sp1 := notifyAll (NUpdate add remove) sp in
  let sp2 :=
    if Bool.eqb (bool_decide (old = ∅)) (bool_decide (new = ∅)) then sp1
    else notifyAll (NNoEndpoints (serviceExists sp)) sp1 in
  {| addresses := new;
     serviceExists := serviceExists sp2;
     listeners := listeners sp2 |}.

(** Modelled from the spec: change of the service resource itself. The
    listeners are told whether it still exists; the address set is the
    business of endpoint updates only. *)
Definition updateService (present : bool) (sp : servicePort) : servicePort :=
  let sp1 := notifyAll (NNoEndpoints present) sp in
  {| addresses := addresses sp1;
     serviceExists := present;
     listeners := listeners sp1 |}.

(** Modelled from the spec: [Subscribe] of the Listener Registry. The new
    listener at once receives one added batch with the full current set;
    this first call is made by [Subscribe] itself. *)
Definition subscribe (sp : servicePort) : nat * servicePort :=
  let handle := fresh (dom (listeners sp)) in
  let sub :=
    deliver (NUpdate (elements (addresses sp)) [])
            {| listener := newCollectUpdateListener; delivered := [];
               queue := [] |} in
  (handle,
   {| addresses := addresses sp;
      serviceExists := serviceExists sp;
      listeners := <[handle := sub]> (listeners sp) |}).

(** Modelled from the spec: [Unsubscribe]; a second call changes nothing. *)
Definition unsubscribe (handle : nat) (sp : servicePort) : servicePort :=
  {| addresses := addresses sp;
     serviceExists := serviceExists sp;
     listeners := delete handle (listeners sp) |}.

(** Modelled from the spec: a step of the execution unit of the listener
    [handle]. *)
Definition deliverTo (handle : nat) (sp : servicePort) : servicePort :=
  {| addresses := addresses sp;
     serviceExists := serviceExists sp;
     listeners := alter deliverNext handle (listeners sp) |}.

(** The index maps (service namespace, service name, port) to its state. *)
Definition serviceKey : Type := string * string * N.

(** Modelled from the spec: what happens to the entry of a key (the index
    is absent from the sources): the change notifications that [Apply]
    accepts, the subscription requests, and the steps of the execution
    units of the listeners. An endpoint-subset or pod change carries the
    recomputed address set. [Unsubscribed] is the explicit call, the
    liveness signal of the consumer, or the registry dropping a listener
    that does not keep up, after which the consumer subscribes anew. *)
Inductive event :=
| EndpointsChanged (new : gset updateAddress)
| ServiceChanged (present : bool)
| Subscribed
| Unsubscribed (handle : nat)
| Delivered (handle : nat).

(** Modelled from the spec: dispatch of an event on the entry of its key. *)
Definition applyPort (ev : event) (sp : servicePort) : servicePort :=
  match ev with
  | EndpointsChanged new => updateAddresses new sp
  | ServiceChanged present => updateService present sp
  | Subscribed => (subscribe sp).2
  | Unsubscribed handle => unsubscribe handle sp
  | Delivered handle => deliverTo handle sp
  end.

(** Modelled from the spec: [Apply] of the index; the entry of a key is
    created when the key is first seen. *)
Definition Apply (idx : gmap serviceKey servicePort) (kev : serviceKey * event)
  : gmap serviceKey servicePort :=
  <[kev.1 := applyPort kev.2 (default newServicePort (idx !! kev.1))]> idx.

Definition applyAll (evs : list (serviceKey * event)) : gmap serviceKey servicePort :=
  foldl Apply ∅ evs.



(** The state of a collecting listener after the notifications [ns]. *)
Definition collected (ns : list notification) : collectUpdateListener :=
  foldl (fun c n =>
           match n with
           | NUpdate add remove => Update add remove c
           | NNoEndpoints e => NoEndpoints e c
           end) newCollectUpdateListener ns.





(** The scenario of the specification: one address of service
    [emojivoto/voting], port 8080, appears and disappears again, then the
    service is deleted; the listener is served after every change. *)
Definition voting : serviceKey := ("emojivoto", "voting", 8080%N).

Definition voting_abc : updateAddress :=
  {| Ip := 167838211; Port := 8080; pod := Some ("emojivoto", "voting-abc") |}.

Definition scenario : list (serviceKey * event) :=
  [ (voting, ServiceChanged true);
    (voting, Subscribed);
    (voting, EndpointsChanged {[ voting_abc ]});
    (voting, Delivered 0); (voting, Delivered 0);
    (voting, EndpointsChanged ∅);
    (voting, Delivered 0); (voting, Delivered 0);
    (voting, ServiceChanged false);
    (voting, Delivered 0) ].


End Endpoints.

(* ===================================================================== *)
(** ** controller/api/public/grpc_server.go: ListPods *)
(* ===================================================================== *)

Module GrpcServer.

Record Resource := {
  Resource_Namespace : string;
  Resource_Type : string;
  Resource_Name : string
}.

Record ResourceSelection := {
  Selection_Resource : option Resource;
  LabelSelector : string
}.

Record ListPodsRequest := {
  Namespace : string;
  Selector : option ResourceSelection
}.

(** Requests that leave the process: lookups in the resource cache and
    queries to the metrics backend (the mock of the tests records the latter
    in [QueriesExecuted]). *)
Inductive backendCall :=
| CacheLookup (what : string)
| PromQuery (query : string).

Section ListPods.
Context {ListPodsResponse : Type}.

(** The part of [ListPods] after validation: it reads the cache and queries
    the backend, appending to the calls made so far. *)
Variable listPodsFromBackends :
  ListPodsRequest -> list backendCall ->
  (option ListPodsResponse * option error) * list backendCall.

(** [req.GetSelector().GetResource()] *)
Definition targetOwner (req : ListPodsRequest) : option Resource :=
  match Selector req with
  | Some sel => Selection_Resource sel
  | None => None
  end.

(** Modelled from the spec: [ListPods] of grpc_server.go (absent from the
    sources). A request that names both a namespace and a resource is a
    validation error, rejected before any cache or backend call; the
    message is the one [TestListPods] expects. *)
Definition ListPods (req : ListPodsRequest) (calls : list backendCall)
  : (option ListPodsResponse * option error) * list backendCall :=
  if negb (String.eqb (Namespace req) "") && bool_decide (is_Some (targetOwner req))
  then
    ((None,
      Some "cannot set both namespace and resource in the request. These are mutually exclusive"),
     calls)
  else listPodsFromBackends req calls.

End ListPods.

(** The conflicting request of [TestListPods]. *)
Definition conflicting_request : ListPodsRequest :=
  {| Namespace := "test";
     Selector :=
       Some {| Selection_Resource :=
                 Some {| Resource_Namespace := ""; Resource_Type := K8s.Pod;
                         Resource_Name := "" |};
               LabelSelector := "" |} |}.

(** A backend phase for examples: one query to the metrics backend. *)
Definition example_backends (req : ListPodsRequest) (calls : list backendCall)
  : (option (list string) * option error) * list backendCall :=
  ((Some [], None),
   (calls ++ [PromQuery "max(process_start_time_seconds{}) by (pod, namespace)"])%list).

End GrpcServer.

(* ===================================================================== *)
(** ** controller/api/public/prometheus.go: labels of a query *)
(* ===================================================================== *)

Module PromLabels.
Import GrpcServer.

(** [model.LabelName] and [model.LabelValue] are strings, [model.LabelNames]
    a slice of names and [model.LabelSet] a map from names to values. *)
Definition namespaceLabel : string := "namespace".
Definition dstNamespaceLabel : string := "dst_namespace".

Definition promResourceType (resource : Resource) : string :=
  K8s.KindToL5DLabel (Resource_Type resource).

(** determine if we should add "namespace=<namespace>" to a named query *)
Definition shouldAddNamespaceLabel (resource : Resource) : bool :=
  negb (String.eqb (Resource_Type resource) K8s.Namespace)
  && negb (String.eqb (Resource_Namespace resource) "").

(** add filtering by resource type; note that metricToKey assumes the label
    ordering (namespace, name) *)
Definition promGroupByLabelNames (resource : Resource) : list string :=
  let names := [namespaceLabel] in
  if negb (String.eqb (Resource_Type resource) K8s.Namespace)
  then (names ++ [promResourceType resource])%list
  else names.

(** query a named resource; the resource may be nil *)
Definition promQueryLabels (resource : option Resource) : gmap string string :=
  let set : gmap string string := ∅ in
  match resource with
  | Some r =>
      let set :=
        if negb (String.eqb (Resource_Name r) "")
           && negb (String.eqb (Resource_Type r) K8s.Service)
        then <[promResourceType r := Resource_Name r]> set
        else set in
      if shouldAddNamespaceLabel r
      then <[namespaceLabel := Resource_Namespace r]> set
      else set
  | None => set
  end.

(** query for inbound or outbound requests *)
Definition promDirectionLabels (direction : string) : gmap string string :=
  {[ "direction" := direction ]}.

Section Dst.
(** [isNonK8sResourceQuery] of stat_summary.go. *)
Variable isNonK8sResourceQuery : string -> bool.

Definition promDstGroupByLabelNames (resource : Resource) : list string :=
  let names := [dstNamespaceLabel] in
  if isNonK8sResourceQuery (Resource_Type resource)
  then (names ++ [promResourceType resource])%list
  else if negb (String.eqb (Resource_Type resource) K8s.Namespace)
       then (names ++ [("dst_" ++ promResourceType resource)%string])%list
       else names.

Definition promDstQueryLabels (resource : Resource) : gmap string string :=
  let set : gmap string string := ∅ in
  if negb (String.eqb (Resource_Name resource) "") then
    if isNonK8sResourceQuery (Resource_Type resource)
    then <[promResourceType resource := Resource_Name resource]> set
    else
      let set :=
        <["dst_" ++ promResourceType resource := Resource_Name resource]> set in
      if shouldAddNamespaceLabel resource
      then <[dstNamespaceLabel := Resource_Namespace resource]> set
      else set
  else set.

End Dst.

End PromLabels.

(* ===================================================================== *)
(** ** web/app/js/components/ResourceDetail.jsx *)
(* ===================================================================== *)

Module ResourceDetail.
Local Open Scope Z_scope.

(** A pod count as the dashboard holds it: absent, a number, or the decimal
    string in which the API serialises 64-bit counts. *)
Inductive jsCount :=
| Undefined
| Number (z : Z)
| NumericString (n : N).

(** [v > 0] in JavaScript: a numeric string is converted to its number,
    [undefined] to NaN, which compares false. *)
Definition gt_zero (v : jsCount) : bool :=
  match v with
  | Undefined => false
  | Number z => 0 <? z
  | NumericString n => (0 <? n)%N
  end.

Record podStats := { totalPods : jsCount; meshedPods : jsCount }.

(** A row of [processSingleResourceRollup]. *)
Record resourceMetric := {
  name : string;
  pods : option podStats;
  totalRequests : Z
}.

Record state := {
  resourceMetrics : list resourceMetric;
  resourceIsMeshed : bool;
  lastMetricReceivedTime : Z;
  pendingRequests : bool;
  loaded : bool
}.

Definition getInitialState (now : Z) : state :=
  {| resourceMetrics := []; resourceIsMeshed := true;
     lastMetricReceivedTime := now; pendingRequests := false; loaded := false |}.

(** [_get(metrics, '[0].pods.meshedPods')] *)
Definition get_0_pods_meshedPods (metrics : list resourceMetric) : jsCount :=
  match metrics !! 0%nat with
  | Some row =>
      match pods row with
      | Some p => meshedPods p
      | None => Undefined
      end
  | None => Undefined
  end.

(** [_isEmpty] on an array. *)
Definition isEmpty {A} (l : list A) : bool :=
  match l with [] => true | _ => false end.

(** The callback of [loadFromServer] that runs when the responses of a poll
    have arrived; [resourceMetrics'] is the processed new batch. *)
Definition onResponses (resourceMetrics' : list resourceMetric) (now : Z)
  (st : state) : state :=
  let resourceIsMeshed :=
    if negb (isEmpty (resourceMetrics st))
    then gt_zero (get_0_pods_meshedPods (resourceMetrics st))
    else true in
  let lastMetricReceivedTime :=
    match resourceMetrics' !! 0%nat with
    | Some row =>
        if negb (totalRequests row =? 0) then now else lastMetricReceivedTime st
    | None => lastMetricReceivedTime st
    end in
  {| resourceMetrics := resourceMetrics';
     resourceIsMeshed := resourceIsMeshed;
     lastMetricReceivedTime := lastMetricReceivedTime;
     pendingRequests := false;
     loaded := true |}.

(** [loadFromServer]: nothing is sent while requests are pending; otherwise
    the requests go out and the callback runs on their responses. *)
Definition loadFromServer (resourceMetrics' : list resourceMetric) (now : Z)
  (st : state) : state :=
  if pendingRequests st then st
  else onResponses resourceMetrics' now
         {| resourceMetrics := resourceMetrics st;
            resourceIsMeshed := resourceIsMeshed st;
            lastMetricReceivedTime := lastMetricReceivedTime st;
            pendingRequests := true;
            loaded := loaded st |}.

(** An error of the API helpers; a canceled request is marked. *)
Record apiError := { isCanceled : bool; message : string }.

(** The state of the page with its [error] field. *)
Record page := { page_state : state; error : option apiError }.

(** The two ways the requests of a poll can end. *)
Inductive outcome :=
| Fulfilled (resourceMetrics' : list resourceMetric)
| Rejected (e : apiError).

Definition handleApiError (e : apiError) (p : page) : page :=
  if isCanceled e then p
  else {| page_state :=
            {| resourceMetrics := resourceMetrics (page_state p);
               resourceIsMeshed := resourceIsMeshed (page_state p);
               lastMetricReceivedTime := lastMetricReceivedTime (page_state p);
               pendingRequests := false;
               loaded := true |};
          error := Some e |}.

(** One tick of the polling timer: [loadFromServer] and, unless requests
    were pending, the end of the requests it sent. *)
Definition poll (p : page) (tick : outcome * Z) : page :=
  if pendingRequests (page_state p) then p
  else
    let sent :=
      {| page_state :=
           {| resourceMetrics := resourceMetrics (page_state p);
              resourceIsMeshed := resourceIsMeshed (page_state p);
              lastMetricReceivedTime := lastMetricReceivedTime (page_state p);
              pendingRequests := true;
              loaded := loaded (page_state p) |};
         error := error p |} in
    match tick.1 with
    | Fulfilled resourceMetrics' =>
        {| page_state := onResponses resourceMetrics' tick.2 (page_state sent);
           error := None |}
    | Rejected e => handleApiError e sent
    end.

(** The flag that a stored batch stands for. *)
Definition meshedOf (batch : list resourceMetric) : bool :=
  match batch with
  | [] => true
  | first :: _ =>
      match pods first with
      | Some p => gt_zero (meshedPods p)
      | None => false
      end
  end.

Definition initialPage (now : Z) : page :=
  {| page_state := getInitialState now; error := None |}.

(** A row for examples, with one pod of which [m] are meshed, and the state
    that a first poll leaves behind when it is answered with an unmeshed
    row followed by a meshed one. *)
Definition example_row (m : N) : resourceMetric :=
  {| name := "voting";
     pods := Some {| totalPods := NumericString 1; meshedPods := NumericString m |};
     totalRequests := 150 |}.

Definition example_polled : state :=
  loadFromServer [example_row 0; example_row 1] 2000 (getInitialState 0).

End ResourceDetail.

(* ===================================================================== *)
(** * Properties *)
(* ===================================================================== *)

Module K8sFacts.
Import K8s.

Example friendly_plural : CanonicalResourceNameFromFriendlyName "deployments"
                          = (Deployment, None).
Proof. reflexivity. Qed.

Example friendly_unknown :
  CanonicalResourceNameFromFriendlyName "pdb"
  = ("", Some "cannot find Kubernetes canonical name from friendly name [pdb]").
Proof. reflexivity. Qed.

Example short_name_of_all : ShortNameFromCanonicalResourceName All = "".
Proof. reflexivity. Qed.

(** C10: for every canonical resource name [c] of [AllResources], the short
    name of [c] is not the empty string and
    [CanonicalResourceNameFromFriendlyName] maps it back to [c] with a nil
    error. *)
Theorem short_name_round_trip :
  Forall (fun c =>
            ShortNameFromCanonicalResourceName c ≠ ""
            ∧ CanonicalResourceNameFromFriendlyName
                (ShortNameFromCanonicalResourceName c) = (c, None))
         AllResources.
Proof.
  unfold AllResources.
  repeat (constructor; [split; [discriminate | reflexivity] |]).
  constructor.
Qed.

(** Case analysis on the [switch] of the friendly names. *)
Lemma canonical_cases f :
  (f ∈ friendlyNames
   /\ exists c, CanonicalResourceNameFromFriendlyName f = (c, None)
                /\ c ∈ All :: AllResources
                /\ CanonicalResourceNameFromFriendlyName c = (c, None)
                /\ (c <> All ->
                    CanonicalResourceNameFromFriendlyName
                      (ShortNameFromCanonicalResourceName c) = (c, None)
                    /\ String.length (ShortNameFromCanonicalResourceName c)
                       <= String.length f))
  \/ ((f ∉ friendlyNames)
      /\ CanonicalResourceNameFromFriendlyName f
         = ("", Some ("cannot find Kubernetes canonical name from friendly name ["
                        ++ f ++ "]"))).
Proof.
  destruct (decide (f ∈ friendlyNames)) as [Hin|Hout].
  - left. split; [exact Hin|]. unfold friendlyNames in Hin.
    repeat (apply elem_of_cons in Hin as [->|Hin];
            [eexists; split; [reflexivity|];
             split; [by apply (bool_decide_unpack _)|];
             split; [reflexivity|];
             intros Hne; split;
               [first [reflexivity | by destruct Hne]
               | first [by destruct Hne | (simpl; lia)]] |]).
    by apply elem_of_nil in Hin.
  - right. split; [exact Hout|].
    unfold CanonicalResourceNameFromFriendlyName, is_case.
    repeat (rewrite bool_decide_false;
            [|intros Hc; apply Hout; unfold friendlyNames;
              repeat (apply elem_of_cons in Hc as [->|Hc];
                      [by apply (bool_decide_unpack _)|]);
              by apply elem_of_nil in Hc]).
    reflexivity.
Qed.

(** The canonical names are fixed points: a name that
    [CanonicalResourceNameFromFriendlyName] accepts is mapped to a name of
    [AllResources] or to [all], and that name is mapped to itself. Every
    other name is refused with an error that quotes it, and the empty
    string as result. *)
Theorem canonical_name_idempotent (f : string) :
  match CanonicalResourceNameFromFriendlyName f with
  | (c, None) =>
      f ∈ friendlyNames /\ c ∈ All :: AllResources
      /\ CanonicalResourceNameFromFriendlyName c = (c, None)
  | (c, Some e) =>
      (f ∉ friendlyNames) /\ c = ""
      /\ e = "cannot find Kubernetes canonical name from friendly name ["
               ++ f ++ "]"
  end.
Proof.
  destruct (canonical_cases f) as [(Hin & c & -> & Hc & Hfix & _)|[Hout ->]];
    by repeat split.
Qed.

(** The short name is the shortest: whenever a friendly name [f] stands for
    a canonical name [c] other than [all], the short name of [c] is at most
    as long as [f], and it stands for [c] too. *)
Theorem short_name_is_shortest (f c : string) :
  CanonicalResourceNameFromFriendlyName f = (c, None) ->
  c <> All ->
  String.length (ShortNameFromCanonicalResourceName c) <= String.length f
  /\ CanonicalResourceNameFromFriendlyName
       (ShortNameFromCanonicalResourceName c) = (c, None).
Proof.
  intros Hf Hne.
  destruct (canonical_cases f) as [(_ & c' & Hc' & _ & _ & Hshort)|[_ Herr]];
    [|congruence].
  assert (c' = c) as -> by congruence.
  destruct (Hshort Hne) as [H1 H2]. by split.
Qed.

Lemma short_name_is_shortest_witness :
  CanonicalResourceNameFromFriendlyName "deployments" = (Deployment, None)
  /\ Deployment <> All
  /\ String.length (ShortNameFromCanonicalResourceName Deployment)
     <= String.length "deployments".
Proof.
  assert (H : Deployment <> All) by discriminate.
  split; [reflexivity | split; [exact H|]].
  exact (proj1 (short_name_is_shortest "deployments" Deployment eq_refl H)).
Defined.

Lemma short_name_cases s :
  (s ∈ AllResources
   /\ ShortNameFromCanonicalResourceName s <> ""
   /\ CanonicalResourceNameFromFriendlyName
        (ShortNameFromCanonicalResourceName s) = (s, None))
  \/ ((s ∉ AllResources) /\ ShortNameFromCanonicalResourceName s = "").
Proof.
  destruct (decide (s ∈ AllResources)) as [Hin|Hout].
  - left. split; [exact Hin|]. unfold AllResources in Hin.
    repeat (apply elem_of_cons in Hin as [->|Hin];
            [split; [discriminate | reflexivity] |]).
    by apply elem_of_nil in Hin.
  - right. split; [exact Hout|].
    unfold ShortNameFromCanonicalResourceName.
    repeat match goal with
           | |- context [String.eqb s ?c] =>
               destruct (String.eqb_spec s c) as [->|_];
               [exfalso; apply Hout; by apply (bool_decide_unpack _) |]
           end.
    reflexivity.
Qed.

(** [ShortNameFromCanonicalResourceName] returns the empty string exactly on
    the names outside [AllResources] (among them [all]), and on
    [AllResources] different names have different short names. *)
Theorem short_name_defined_and_injective (a b : string) :
  (ShortNameFromCanonicalResourceName a = "" <-> a ∉ AllResources)
  /\ (ShortNameFromCanonicalResourceName a <> "" ->
      ShortNameFromCanonicalResourceName a = ShortNameFromCanonicalResourceName b ->
      a = b).
Proof.
  split.
  - destruct (short_name_cases a) as [(Hin & Hne & _)|[Hout He]]; split;
      try done.
  - intros Hne Heq.
    destruct (short_name_cases a) as [(_ & _ & Ha)|[_ He]]; [|done].
    destruct (short_name_cases b) as [(_ & _ & Hb)|[_ He]]; [|congruence].
    rewrite Heq in Ha. congruence.
Qed.

Lemma short_name_defined_and_injective_witness :
  ShortNameFromCanonicalResourceName Pod <> ""
  /\ ShortNameFromCanonicalResourceName Pod = ShortNameFromCanonicalResourceName "pod"
  /\ Pod = "pod".
Proof.
  assert (H : ShortNameFromCanonicalResourceName Pod <> "") by discriminate.
  split; [exact H | split; [reflexivity|]].
  exact (proj2 (short_name_defined_and_injective Pod "pod") H eq_refl).
Defined.

(** The Linkerd label of a kind is never Prometheus' own label [job]; apart
    from [job] itself every kind is its own label, so kinds other than the
    label [k8s_job] keep distinct labels. *)
Theorem l5d_label_never_job (k k' : string) :
  KindToL5DLabel k <> "job"
  /\ (k <> Job -> KindToL5DLabel k = k)
  /\ (k <> l5dJob -> k' <> l5dJob ->
      KindToL5DLabel k = KindToL5DLabel k' -> k = k').
Proof.
  unfold KindToL5DLabel.
  destruct (String.eqb_spec k Job) as [->|Hk],
           (String.eqb_spec k' Job) as [->|Hk']; repeat split;
    try done; try (intros; congruence).
Qed.

Lemma l5d_label_never_job_witness :
  Pod <> Job /\ KindToL5DLabel Pod = Pod.
Proof.
  assert (H : Pod <> Job) by discriminate.
  split; [exact H|].
  exact (proj1 (proj2 (l5d_label_never_job Pod Pod)) H).
Defined.

Lemma substring_0_app s t :
  substring 0 (String.length s) (s ++ t) = s.
Proof. induction s as [|c s IH]; simpl; [by destruct t | by rewrite IH]. Qed.

Lemma substring_0_self t : substring 0 (String.length t) t = t.
Proof. induction t as [|c t IH]; simpl; [reflexivity | by rewrite IH]. Qed.

Lemma substring_length_app s t :
  substring (String.length s) (String.length t) (s ++ t) = t.
Proof.
  induction s as [|c s IH]; simpl; [apply substring_0_self | exact IH].
Qed.

Lemma string_app_length s t :
  String.length (s ++ t) = String.length s + String.length t.
Proof. induction s as [|c s IH]; simpl; [reflexivity | by rewrite IH]. Qed.

Lemma TrimSuffix_app s suffix : TrimSuffix (s ++ suffix) suffix = s.
Proof.
  unfold TrimSuffix, HasSuffix. rewrite string_app_length.
  replace (String.length s + String.length suffix - String.length suffix)
    with (String.length s) by lia.
  rewrite substring_length_app, String.eqb_refl, substring_0_app.
  by rewrite (proj2 (Nat.leb_le _ _)) by lia.
Qed.

(** A trailing slash of the server URL makes no difference, and the URL of
    an API path is the server URL, trimmed, followed by
    [/api/v1/namespaces/<namespace><path>]; the only error of the function
    itself is a path that does not start with a slash. *)
Theorem kubernetes_url_trailing_slash {URL : Type}
    (url_Parse : string -> error + URL) (serverURL namespace path : string) :
  HasSuffix serverURL "/" = false ->
  generateKubernetesAPIURLFor url_Parse (serverURL ++ "/") namespace path
  = generateKubernetesAPIURLFor url_Parse serverURL namespace path
  /\ generateKubernetesAPIURLFor url_Parse serverURL namespace path
     = if HasPrefix path "/" then
         match url_Parse (serverURL ++ "/api/v1/namespaces/" ++ namespace ++ path) with
         | inl err => (None, Some err)
         | inr u => (Some u, None)
         end
       else (None, Some ("path must start with a /, got [" ++ path ++ "]")).
Proof.
  intros Hs. unfold generateKubernetesAPIURLFor, generateKubernetesURL.
  rewrite TrimSuffix_app. unfold TrimSuffix at 1 2. rewrite Hs.
  destruct (HasPrefix path "/"); simpl; by split.
Qed.

Lemma kubernetes_url_trailing_slash_witness :
  HasSuffix "https://10.0.0.1:6443" "/" = false
  /\ generateKubernetesAPIURLFor (fun s => inr s) ("https://10.0.0.1:6443" ++ "/")
       "linkerd" "/pods"
     = generateKubernetesAPIURLFor (fun s => inr s) "https://10.0.0.1:6443"
         "linkerd" "/pods".
Proof.
  split; [reflexivity|].
  exact (proj1 (kubernetes_url_trailing_slash (URL := string) (fun s => inr s)
                  "https://10.0.0.1:6443" "linkerd" "/pods" eq_refl)).
Defined.

End K8sFacts.

(* --------------------------------------------------------------------- *)
(** ** The rate helpers never divide by zero *)
(* --------------------------------------------------------------------- *)

Module CmdFacts.
Import Cmd.
Local Open Scope Z_scope.

(** [digits2_pos] is the binary size of a positive number. *)
Lemma digits2_pos_size p : digits2_pos p = Pos.size p.
Proof. induction p; simpl; congruence. Qed.

Lemma digits2_pos_bounds p :
  2 ^ (Zpos (digits2_pos p) - 1) <= Zpos p < 2 ^ Zpos (digits2_pos p).
Proof.
  rewrite digits2_pos_size. split.
  - pose proof (Pos.size_le p) as H.
    apply Pos2Z.pos_le_pos in H. rewrite Pos2Z.inj_pow in H.
    replace (Zpos (Pos.size p)) with (Z.succ (Zpos (Pos.size p) - 1)) in H by lia.
    rewrite Z.pow_succ_r in H by lia. lia.
  - pose proof (Pos.size_gt p) as H.
    apply Pos2Z.pos_lt_pos in H. by rewrite Pos2Z.inj_pow in H.
Qed.

Lemma Zdigits2_bounds m :
  0 < m <= 2 ^ 64 -> 1 <= Zdigits2 m <= 65 /\ 2 ^ (Zdigits2 m - 1) <= m.
Proof.
  intros [H1 H2]. destruct m as [|p|p]; try lia. simpl.
  pose proof (digits2_pos_bounds p) as [Hlo Hhi].
  split; [split; [lia|] | exact Hlo].
  destruct (Z_le_gt_dec (Zpos (digits2_pos p)) 65) as [|Hgt]; [assumption|].
  assert (2 ^ 65 <= 2 ^ (Zpos (digits2_pos p) - 1)) by (apply Z.pow_le_mono_r; lia).
  lia.
Qed.

(** Shifting a non-negative mantissa right halves it. *)
Lemma shr_1_m mrs : 0 <= shr_m mrs -> shr_m (shr_1 mrs) = Z.div2 (shr_m mrs).
Proof.
  destruct mrs as [m r s]. simpl. intros H.
  destruct m as [|[p|p|]|p]; simpl; try reflexivity; lia.
Qed.

Lemma iter_shr_1_m n : forall mrs, 0 <= shr_m mrs ->
  shr_m (SpecFloat.iter_pos shr_1 n mrs) = Z.shiftr (shr_m mrs) (Zpos n).
Proof.
  induction n as [n IH|n IH|]; intros mrs H; simpl.
  - assert (H1 : 0 <= shr_m (shr_1 mrs)).
    { rewrite shr_1_m by assumption. by apply Z.div2_nonneg. }
    assert (H2 : 0 <= shr_m (SpecFloat.iter_pos shr_1 n (shr_1 mrs))).
    { rewrite IH by assumption. by apply Z.shiftr_nonneg. }
    rewrite IH by assumption. rewrite IH by assumption.
    rewrite shr_1_m by assumption.
    rewrite Z.div2_spec. rewrite !Z.shiftr_shiftr by lia. f_equal. lia.
  - assert (H2 : 0 <= shr_m (SpecFloat.iter_pos shr_1 n mrs)).
    { rewrite IH by assumption. by apply Z.shiftr_nonneg. }
    rewrite IH by assumption. rewrite IH by assumption.
    rewrite !Z.shiftr_shiftr by lia. f_equal. lia.
  - rewrite shr_1_m by assumption. apply Z.div2_spec.
Qed.

(** Rounding to the format keeps a positive mantissa positive and moves the
    exponent up by at most 12. *)
Lemma shr_fexp_pos m e l :
  0 < m <= 2 ^ 64 -> -1074 <= e ->
  0 < shr_m (shr_fexp 53 1024 m e l).1 <= m
  /\ e <= (shr_fexp 53 1024 m e l).2 <= e + 12.
Proof.
  intros Hm He. destruct (Zdigits2_bounds m Hm) as [Hd Hlo].
  unfold shr_fexp, fexp, emin, shr.
  assert (Hrec : shr_m (shr_record_of_loc m l) = m)
    by (destruct l as [|[ | | ]]; reflexivity).
  destruct (Z.max (Zdigits2 m + e - 53) (3 - 1024 - 53) - e) as [|n|n] eqn:En;
    simpl; rewrite ?Hrec; try lia.
  rewrite iter_shr_1_m by (rewrite Hrec; lia). rewrite Hrec.
  rewrite Z.shiftr_div_pow2 by lia.
  assert (Hn : Zpos n = Zdigits2 m - 53) by lia.
  assert (H2n : 0 < 2 ^ Zpos n) by (apply Z.pow_pos_nonneg; lia).
  assert (Hle : 2 ^ Zpos n <= m).
  { etransitivity; [|exact Hlo]. apply Z.pow_le_mono_r; lia. }
  split; [split|lia].
  - apply Z.div_str_pos. lia.
  - apply Z.div_le_upper_bound; [lia|]. nia.
Qed.

Lemma binary_round_aux_finite m e l :
  0 < m < 2 ^ 64 -> -1074 <= e <= 0 ->
  exists m' e', binary_round_aux 53 1024 false m e l = S754_finite false m' e'.
Proof.
  intros Hm He. unfold binary_round_aux.
  destruct (shr_fexp_pos m e l) as [Hm1 He1]; [lia|lia|].
  destruct (shr_fexp 53 1024 m e l) as [mrs1 e1]. simpl in Hm1, He1.
  set (m2 := round_nearest_even (shr_m mrs1) (loc_of_shr_record mrs1)).
  assert (Hm2 : 0 < m2 <= 2 ^ 64).
  { unfold m2, round_nearest_even.
    destruct (loc_of_shr_record mrs1) as [|[ | | ]]; try lia.
    destruct (Z.even (shr_m mrs1)); lia. }
  destruct (shr_fexp_pos m2 e1 loc_Exact) as [Hm3 He3]; [lia|lia|].
  destruct (shr_fexp 53 1024 m2 e1 loc_Exact) as [mrs3 e3]. simpl in Hm3, He3.
  destruct (shr_m mrs3) as [|p|p]; try lia.
  destruct (Z.leb_spec e3 (1024 - 53)); [eauto | lia].
Qed.

Lemma iter_xO_pow2 p k : Zpos (Pos.iter xO p k) = Zpos p * 2 ^ Zpos k.
Proof.
  induction k as [|k IH] using Pos.peano_ind.
  - simpl. lia.
  - rewrite Pos.iter_succ, Pos2Z.inj_xO, IH, Pos2Z.inj_succ, Z.pow_succ_r by lia.
    lia.
Qed.

(** The conversion of a non-zero [uint64] is a finite, non-zero float. *)
Lemma float64_of_uint64_finite u :
  0 < u < 2 ^ 64 -> is_nonzero_finite (float64_of_uint64 u) = true.
Proof.
  intros Hu. destruct u as [|p|p]; try lia.
  cut (exists m e, float64_of_uint64 (Zpos p) = S754_finite false m e).
  { intros (m & e & ->). reflexivity. }
  unfold float64_of_uint64, binary_normalize, binary_round, shl_align, fexp, emin.
  pose proof (digits2_pos_bounds p) as [Hlo Hhi].
  assert (Hd : Zpos (digits2_pos p) <= 64).
  { destruct (Z_le_gt_dec (Zpos (digits2_pos p)) 64) as [|Hgt]; [assumption|].
    assert (2 ^ 64 <= 2 ^ (Zpos (digits2_pos p) - 1))
      by (apply Z.pow_le_mono_r; lia).
    lia. }
  destruct (Z.max (Zpos (digits2_pos p) + 0 - 53) (3 - 1024 - 53) - 0)
    as [|k|k] eqn:Ek.
  - apply binary_round_aux_finite; lia.
  - apply binary_round_aux_finite; lia.
  - apply binary_round_aux_finite; [|lia].
    rewrite iter_xO_pow2. split; [lia|].
    assert (Hk : Zpos k = 53 - Zpos (digits2_pos p)) by lia.
    assert (H : Zpos p * 2 ^ Zpos k < 2 ^ Zpos (digits2_pos p) * 2 ^ Zpos k).
    { apply Z.mul_lt_mono_pos_r; [apply Z.pow_pos_nonneg; lia | exact Hhi]. }
    rewrite <- Z.pow_add_r in H by lia.
    replace (Zpos (digits2_pos p) + Zpos k) with 53 in H by lia.
    assert (2 ^ 53 < 2 ^ 64) by (apply Z.pow_lt_mono_r; lia). lia.
Qed.

Lemma add_uint64_range a b : 0 <= add_uint64 a b < 2 ^ 64.
Proof. unfold add_uint64. apply Z.mod_pos_bound. lia. Qed.

(** 2^63 + 2^63 wraps around to 0 and takes the guarded branch. *)
Example getSuccessRate_wraps : getSuccessRate (2 ^ 63) (2 ^ 63) = float64_zero.
Proof. reflexivity. Qed.

(** 3 / 4 = 0.75 = 6755399441055744 * 2^-53. *)
Example getSuccessRate_three_quarters :
  getSuccessRate 3 1 = S754_finite false 6755399441055744 (-53).
Proof. vm_compute. reflexivity. Qed.

(** C9: with [success + failure] and [SuccessCount + FailureCount] computed
    in [uint64], [getSuccessRate] and [getPercentTLS] return 0.0 when that
    total is 0; otherwise each returns the quotient of its numerator by the
    total, and the divisor is a finite float different from zero. *)
Theorem rate_helpers_guard_division (success failure : Z) (stats : BasicStats) :
  is_uint64 success -> is_uint64 failure -> valid_BasicStats stats ->
  let total := add_uint64 success failure in
  let reqTotal := add_uint64 (SuccessCount stats) (FailureCount stats) in
  (total = 0 -> getSuccessRate success failure = float64_zero)
  /\ (total <> 0 ->
      getSuccessRate success failure
      = float64_div (float64_of_uint64 success) (float64_of_uint64 total)
      /\ is_nonzero_finite (float64_of_uint64 total) = true)
  /\ (reqTotal = 0 -> getPercentTLS stats = float64_zero)
  /\ (reqTotal <> 0 ->
      getPercentTLS stats
      = float64_div (float64_of_uint64 (TlsRequestCount stats))
                    (float64_of_uint64 reqTotal)
      /\ is_nonzero_finite (float64_of_uint64 reqTotal) = true).
Proof.
  intros _ _ _ total reqTotal.
  pose proof (add_uint64_range success failure) as Ht.
  pose proof (add_uint64_range (SuccessCount stats) (FailureCount stats)) as Hr.
  fold total in Ht. fold reqTotal in Hr.
  unfold getSuccessRate, getPercentTLS. fold total. fold reqTotal.
  repeat split.
  - intros ->. reflexivity.
  - destruct (Z.eqb_spec total 0); [contradiction | reflexivity].
  - apply float64_of_uint64_finite. lia.
  - intros ->. reflexivity.
  - destruct (Z.eqb_spec reqTotal 0); [contradiction | reflexivity].
  - apply float64_of_uint64_finite. lia.
Qed.

Lemma rate_helpers_guard_division_witness :
  is_uint64 3 /\ is_uint64 1
  /\ valid_BasicStats {| SuccessCount := 2 ^ 63; FailureCount := 2 ^ 63;
                         TlsRequestCount := 7 |}
  /\ getSuccessRate 3 1
     = float64_div (float64_of_uint64 3) (float64_of_uint64 4)
  /\ getPercentTLS {| SuccessCount := 2 ^ 63; FailureCount := 2 ^ 63;
                      TlsRequestCount := 7 |} = float64_zero.
Proof.
  assert (H1 : is_uint64 3) by (unfold is_uint64; lia).
  assert (H2 : is_uint64 1) by (unfold is_uint64; lia).
  assert (H3 : valid_BasicStats {| SuccessCount := 2 ^ 63; FailureCount := 2 ^ 63;
                                   TlsRequestCount := 7 |})
    by (unfold valid_BasicStats, is_uint64; simpl; lia).
  destruct (rate_helpers_guard_division 3 1 _ H1 H2 H3) as (_ & Hs & Hz & _).
  split; [exact H1 | split; [exact H2 | split; [exact H3 | split]]].
  - apply Hs. vm_compute. discriminate.
  - apply Hz. reflexivity.
Defined.

(** The conversion of a non-zero [uint64] is a positive finite float. *)
Lemma float64_of_uint64_positive u :
  0 < u < 2 ^ 64 -> exists m e, float64_of_uint64 u = S754_finite false m e.
Proof.
  intros Hu. destruct u as [|p|p]; try lia.
  unfold float64_of_uint64, binary_normalize, binary_round, shl_align, fexp, emin.
  pose proof (digits2_pos_bounds p) as [Hlo Hhi].
  assert (Hd : Zpos (digits2_pos p) <= 64).
  { destruct (Z_le_gt_dec (Zpos (digits2_pos p)) 64) as [|Hgt]; [assumption|].
    assert (2 ^ 64 <= 2 ^ (Zpos (digits2_pos p) - 1))
      by (apply Z.pow_le_mono_r; lia).
    lia. }
  destruct (Z.max (Zpos (digits2_pos p) + 0 - 53) (3 - 1024 - 53) - 0)
    as [|k|k] eqn:Ek.
  - apply binary_round_aux_finite; lia.
  - apply binary_round_aux_finite; lia.
  - apply binary_round_aux_finite; [|lia].
    rewrite iter_xO_pow2. split; [lia|].
    assert (Hk : Zpos k = 53 - Zpos (digits2_pos p)) by lia.
    assert (H : Zpos p * 2 ^ Zpos k < 2 ^ Zpos (digits2_pos p) * 2 ^ Zpos k).
    { apply Z.mul_lt_mono_pos_r; [apply Z.pow_pos_nonneg; lia | exact Hhi]. }
    rewrite <- Z.pow_add_r in H by lia.
    replace (Zpos (digits2_pos p) + Zpos k) with 53 in H by lia.
    assert (2 ^ 53 < 2 ^ 64) by (apply Z.pow_lt_mono_r; lia). lia.
Qed.

(** A finite float divided by itself is exactly 1.0. *)
Lemma float64_div_self m e :
  float64_div (S754_finite false m e) (S754_finite false m e) = float64_one.
Proof.
  unfold float64_div, SFdiv, SFdiv_core_binary.
  rewrite !Z.sub_diag.
  change (Z.min (fexp 53 1024 0) 0) with (-53).
  change (0 - -53) with 53.
  cbv beta iota zeta.
  assert (Hdiv : Z.div_eucl (Z.shiftl (Zpos m) 53) (Zpos m) = (2 ^ 53, 0)).
  { rewrite Z.shiftl_mul_pow2 by lia.
    pose proof (Z.div_eucl_eq (Z.pos m * 2 ^ 53) (Z.pos m)) as Heq.
    pose proof (Z.mod_pos_bound (Z.pos m * 2 ^ 53) (Z.pos m)) as Hb.
    unfold Z.modulo in Hb.
    destruct (Z.div_eucl (Z.pos m * 2 ^ 53) (Z.pos m)) as [q r].
    specialize (Heq ltac:(lia)). specialize (Hb ltac:(lia)).
    assert (q = 2 ^ 53) by nia. subst q. f_equal. lia. }
  rewrite Hdiv.
  assert (Hloc : new_location (Zpos m) 0 = loc_Exact).
  { unfold new_location, new_location_even, new_location_odd.
    destruct (Z.even (Z.pos m)); reflexivity. }
  rewrite Hloc. vm_compute. reflexivity.
Qed.

Lemma add_uint64_0_r a : is_uint64 a -> add_uint64 a 0 = a.
Proof. unfold is_uint64, add_uint64. intros H. rewrite Z.add_0_r. apply Z.mod_small. lia. Qed.

Lemma add_uint64_0_l a : is_uint64 a -> add_uint64 0 a = a.
Proof. unfold is_uint64, add_uint64. intros H. apply Z.mod_small. lia. Qed.

(** The rates at the two ends: with no success at all the success rate is
    exactly 0.0, whatever the number of failures, and with successes and no
    failure it is exactly 1.0; the share of TLS traffic is exactly 0.0 when
    no request used TLS and exactly 1.0 when the TLS requests are as many as
    the (non-zero) total. *)
Theorem rates_at_the_extremes (success failure : Z) (stats : BasicStats) :
  is_uint64 success -> is_uint64 failure -> valid_BasicStats stats ->
  getSuccessRate 0 failure = float64_zero
  /\ (0 < success -> getSuccessRate success 0 = float64_one)
  /\ (TlsRequestCount stats = 0 -> getPercentTLS stats = float64_zero)
  /\ (add_uint64 (SuccessCount stats) (FailureCount stats) <> 0 ->
      TlsRequestCount stats
      = add_uint64 (SuccessCount stats) (FailureCount stats) ->
      getPercentTLS stats = float64_one).
Proof.
  intros Hs Hf (Hsc & Hfc & Htc).
  assert (Hzero : forall t, 0 <= t < 2 ^ 64 ->
            (if t =? 0 then float64_zero
             else float64_div (float64_of_uint64 0) (float64_of_uint64 t))
            = float64_zero).
  { intros t Ht. destruct (Z.eqb_spec t 0); [reflexivity|].
    destruct (float64_of_uint64_positive t) as (m & e & ->); [lia|reflexivity]. }
  assert (Hone : forall t, 0 < t < 2 ^ 64 ->
            (if t =? 0 then float64_zero
             else float64_div (float64_of_uint64 t) (float64_of_uint64 t))
            = float64_one).
  { intros t Ht. destruct (Z.eqb_spec t 0); [lia|].
    destruct (float64_of_uint64_positive t) as (m & e & ->); [lia|].
    apply float64_div_self. }
  split; [|split; [|split]].
  - unfold getSuccessRate. apply Hzero, add_uint64_range.
  - intros Hpos. unfold getSuccessRate. rewrite add_uint64_0_r by exact Hs.
    apply Hone. unfold is_uint64 in Hs. lia.
  - intros Htls. unfold getPercentTLS. rewrite Htls.
    apply Hzero, add_uint64_range.
  - intros Hne Htls. unfold getPercentTLS. rewrite Htls.
    apply Hone.
    pose proof (add_uint64_range (SuccessCount stats) (FailureCount stats)). lia.
Qed.

Lemma rates_at_the_extremes_witness :
  is_uint64 12 /\ is_uint64 5
  /\ valid_BasicStats {| SuccessCount := 9; FailureCount := 1;
                         TlsRequestCount := 10 |}
  /\ getSuccessRate 0 5 = float64_zero
  /\ getSuccessRate 12 0 = float64_one
  /\ getPercentTLS {| SuccessCount := 9; FailureCount := 1;
                      TlsRequestCount := 10 |} = float64_one.
Proof.
  assert (H1 : is_uint64 12) by (unfold is_uint64; lia).
  assert (H2 : is_uint64 5) by (unfold is_uint64; lia).
  assert (H3 : valid_BasicStats {| SuccessCount := 9; FailureCount := 1;
                                   TlsRequestCount := 10 |})
    by (unfold valid_BasicStats, is_uint64; simpl; lia).
  destruct (rates_at_the_extremes 12 5 _ H1 H2 H3) as (Ha & Hb & _ & Hd).
  split; [exact H1 | split; [exact H2 | split; [exact H3 | split; [exact Ha | split]]]].
  - apply Hb. lia.
  - apply Hd; [vm_compute; discriminate | reflexivity].
Defined.

Lemma matchString_forall class s :
  matchString class s = true ->
  s <> "" /\ Forall (fun c => class c = true) (list_ascii_of_string s).
Proof.
  unfold matchString. intros [Hne Hall]%andb_prop. split.
  - destruct (String.eqb_spec s ""); [discriminate | done].
  - apply Forall_forall. intros c Hc. apply list_elem_of_In in Hc.
    by apply (proj1 (forallb_forall _ _) Hall).
Qed.

(** The defaults pass validation whenever the version of the binary is a
    well-formed version string, and only then; no quantity is parsed for
    them. Options that pass validation have a version and a registry made
    of the permitted characters only, one of the three pull policies, and
    TLS either off or optional. *)
Theorem default_options_validate (version : string)
    (ParseQuantity_ok : string -> bool) (options : proxyConfigOptions) :
  (validate ParseQuantity_ok (newProxyConfigOptions version) = None
   <-> alphaNumDashDot version = true)
  /\ (validate ParseQuantity_ok options = None ->
      alphaNumDashDot (linkerdVersion options) = true
      /\ alphaNumDashDotSlashColon (dockerRegistry options) = true
      /\ imagePullPolicy options ∈ ["Always"; "IfNotPresent"; "Never"]
      /\ (tls options = "" \/ enableTLS options = true)).
Proof.
  split.
  - unfold validate. simpl.
    destruct (alphaNumDashDot version); simpl; [|by split].
    by split.
  - unfold validate, enableTLS.
    destruct (alphaNumDashDot (linkerdVersion options)); simpl; [|discriminate].
    destruct (alphaNumDashDotSlashColon (dockerRegistry options)); simpl;
      [|discriminate].
    intros H.
    assert (Hpolicy : imagePullPolicy options ∈ ["Always"; "IfNotPresent"; "Never"]).
    { destruct (String.eqb_spec (imagePullPolicy options) "Always") as [->|_];
        [apply list_elem_of_here|].
      destruct (String.eqb_spec (imagePullPolicy options) "IfNotPresent") as [->|_];
        [apply list_elem_of_further, list_elem_of_here|].
      destruct (String.eqb_spec (imagePullPolicy options) "Never") as [->|_];
        [apply list_elem_of_further, list_elem_of_further, list_elem_of_here|].
      discriminate. }
    split; [done | split; [done | split; [exact Hpolicy|]]].
    destruct (negb (imagePullPolicy options =? "Always")%string
              && negb (imagePullPolicy options =? "IfNotPresent")%string
              && negb (imagePullPolicy options =? "Never")%string);
      [discriminate|].
    destruct (negb (proxyCPURequest options =? "")%string
              && negb (ParseQuantity_ok (proxyCPURequest options)));
      [discriminate|].
    destruct (negb (proxyMemoryRequest options =? "")%string
              && negb (ParseQuantity_ok (proxyMemoryRequest options)));
      [discriminate|].
    destruct (String.eqb_spec (tls options) "") as [Ht|_]; [by left|].
    destruct (String.eqb_spec (tls options) optionalTLS) as [Ht|_];
      [by right | discriminate].
Qed.

Lemma default_options_validate_witness :
  validate (fun _ => false) example_options = None
  /\ alphaNumDashDotSlashColon (dockerRegistry example_options) = true.
Proof.
  split; [reflexivity|].
  exact (proj1 (proj2 (proj2 (default_options_validate "stable-2.2.1"
                                (fun _ => false) example_options) eq_refl))).
Defined.

Lemma string_drop_length_app s t : string_drop (String.length s) (s ++ t) = t.
Proof. induction s as [|c s IH]; simpl; [reflexivity | exact IH]. Qed.

Lemma prefix_app s t : String.prefix s (s ++ t) = true.
Proof.
  induction s as [|c s IH]; simpl; [by destruct t|].
  destruct (ascii_dec c c); [exact IH | done].
Qed.

Lemma prefix_drop old s :
  String.prefix old s = true -> old ++ string_drop (String.length old) s = s.
Proof.
  revert s. induction old as [|c old IH]; intros s H; simpl; [reflexivity|].
  destruct s as [|c' s]; simpl in H; [discriminate|].
  destruct (ascii_dec c c') as [->|]; [|discriminate].
  change (String c' (old ++ string_drop (String.length old) s) = String c' s).
  by rewrite IH.
Qed.

Lemma Replace1_unfold s old new :
  Replace1 s old new
  = if String.prefix old s then new ++ string_drop (String.length old) s
    else match s with
         | EmptyString => EmptyString
         | String c s' => String c (Replace1 s' old new)
         end.
Proof. by destruct s. Qed.

Lemma Replace1_same s old : Replace1 s old old = s.
Proof.
  induction s as [|c s IH]; rewrite Replace1_unfold.
  - destruct (String.prefix old "") eqn:Hp; [by apply prefix_drop in Hp | done].
  - destruct (String.prefix old (String c s)) eqn:Hp.
    + by apply prefix_drop in Hp.
    + by rewrite IH.
Qed.

Lemma Replace1_prefix old rest new :
  Replace1 (old ++ rest) old new = new ++ rest.
Proof. by rewrite Replace1_unfold, prefix_app, string_drop_length_app. Qed.

(** The registry override: an image that lives in the default registry is
    moved to the registry of the options and tagged with the version, so
    the default proxy image becomes [<registry>/proxy:<version>]; with the
    default registry any image name is kept as it is, tag appended. *)
Theorem tagged_image_follows_registry (options : proxyConfigOptions)
    (rest : string) :
  (proxyImage options = defaultDockerRegistry ++ rest ->
   taggedProxyImage options
   = dockerRegistry options ++ rest ++ ":" ++ linkerdVersion options)
  /\ (initImage options = defaultDockerRegistry ++ rest ->
      taggedProxyInitImage options
      = dockerRegistry options ++ rest ++ ":" ++ linkerdVersion options)
  /\ (dockerRegistry options = defaultDockerRegistry ->
      taggedProxyImage options
      = proxyImage options ++ ":" ++ linkerdVersion options
      /\ taggedProxyInitImage options
         = initImage options ++ ":" ++ linkerdVersion options).
Proof.
  assert (Happ : forall r a b : string, (r ++ a) ++ b = r ++ a ++ b).
  { intros r a b. induction r as [|c r IH]; [reflexivity|].
    change (String c ((r ++ a) ++ b) = String c (r ++ a ++ b)). by rewrite IH. }
  split; [|split].
  - intros Himg. unfold taggedProxyImage. cbv zeta.
    by rewrite Himg, Replace1_prefix, Happ.
  - intros Himg. unfold taggedProxyInitImage. cbv zeta.
    by rewrite Himg, Replace1_prefix, Happ.
  - intros Hreg. unfold taggedProxyImage, taggedProxyInitImage. cbv zeta.
    by rewrite Hreg, !Replace1_same.
Qed.

Lemma tagged_image_follows_registry_witness :
  proxyImage (newProxyConfigOptions "stable-2.2.1")
  = defaultDockerRegistry ++ "/proxy"
  /\ taggedProxyImage (newProxyConfigOptions "stable-2.2.1")
     = "gcr.io/linkerd-io/proxy:stable-2.2.1".
Proof.
  split; [reflexivity|].
  exact (proj1 (tagged_image_follows_registry
                  (newProxyConfigOptions "stable-2.2.1") "/proxy") eq_refl).
Defined.


Section RenderStatsFacts.
Variable padding : nat.

Lemma spaces_length n : String.length (spaces n) = n.
Proof. induction n as [|n IH]; simpl; [reflexivity | by rewrite IH]. Qed.

Lemma ReplaceAll_from_skip sp t old new :
  ReplaceAll_from (String.length sp) (sp ++ t) old new
  = ReplaceAll_from 0 t old new.
Proof.
  induction sp as [|c sp IH]; simpl.
  - by destruct t.
  - exact IH.
Qed.

Lemma prefix_newline_other old c s :
  c <> "010"%char -> String.prefix (String "010" old) (String c s) = false.
Proof.
  intros Hc. cbn [String.prefix].
  destruct (ascii_dec "010" c); [congruence | reflexivity].
Qed.

Lemma prefix_nil_iff s : String.prefix s "" = true -> s = "".
Proof. by destruct s. Qed.

Lemma ReplaceAll_rows rows : forall row,
  single_line row = true ->
  Forall (fun r => single_line r = true) rows ->
  ReplaceAll_from 0 (row ++ newline ++ padded_table padding rows)
    (newline ++ spaces padding) newline
  = row ++ newline ++ plain_table rows.
Proof.
  induction rows as [|next rows IHrows]; intros row Hrow Hrows;
    induction row as [|c row IHrow].
  - simpl. destruct padding; reflexivity.
  - simpl in Hrow. apply andb_prop in Hrow as [Hc Hrow].
    change (ReplaceAll_from 0 (String c (row ++ newline ++ padded_table padding []))
              (String "010" (spaces padding)) newline
            = String c (row ++ newline ++ plain_table [])).
    cbn [ReplaceAll_from]. rewrite prefix_newline_other.
    + by rewrite <- IHrow.
    + intros ->. discriminate.
  - apply Forall_cons in Hrows as [Hnext Hrows].
    change (ReplaceAll_from 0
              (String "010" (spaces padding ++ next ++ newline ++ padded_table padding rows))
              (String "010" (spaces padding)) newline
            = String "010" (next ++ newline ++ plain_table rows)).
    cbn [ReplaceAll_from].
    assert (Hp : String.prefix (String "010" (spaces padding))
                   (String "010" (spaces padding ++ next ++ newline
                                  ++ padded_table padding rows)) = true).
    { cbn [String.prefix].
      destruct (ascii_dec "010" "010"); [apply prefix_app | done]. }
    rewrite Hp. cbn [String.length]. rewrite Nat.sub_succ, Nat.sub_0_r.
    rewrite ReplaceAll_from_skip, IHrows by done. reflexivity.
  - simpl in Hrow. apply andb_prop in Hrow as [Hc Hrow].
    change (ReplaceAll_from 0
              (String c (row ++ newline ++ padded_table padding (next :: rows)))
              (String "010" (spaces padding)) newline
            = String c (row ++ newline ++ plain_table (next :: rows))).
    cbn [ReplaceAll_from]. rewrite prefix_newline_other.
    + by rewrite <- IHrow.
    + intros ->. discriminate.
Qed.

(** JSON output is handed on untouched. A table has the left padding
    stripped from every row: a buffer of rows, each behind the padding and
    closed by a line feed, is rendered as the rows without the padding. A
    buffer shorter than the padding makes the slice expression fail. *)
Theorem renderStats_strips_padding (buffer row : string) (rows : list string)
    (options : statOptionsBase) :
  (outputFormat options = "json" ->
   renderStats padding buffer options = Some buffer)
  /\ (outputFormat options <> "json" ->
      ((String.length buffer < padding)%nat ->
       renderStats padding buffer options = None)
      /\ (single_line row = true ->
          Forall (fun r => single_line r = true) rows ->
          renderStats padding (padded_table padding (row :: rows)) options
          = Some (plain_table (row :: rows)))).
Proof.
  unfold renderStats. split.
  - intros ->. reflexivity.
  - intros Hfmt.
    destruct (String.eqb_spec (outputFormat options) "json"); [done|].
    split.
    + intros Hlen. by rewrite (proj2 (Nat.ltb_lt _ _)) by exact Hlen.
    + intros Hrow Hrows.
      change (padded_table padding (row :: rows))
        with (spaces padding ++ row ++ newline ++ padded_table padding rows).
      rewrite (proj2 (Nat.ltb_ge _ _))
        by (rewrite K8sFacts.string_app_length, spaces_length; lia).
      cbv zeta. rewrite <- (spaces_length padding) at 1.
      rewrite string_drop_length_app. unfold ReplaceAll.
      by rewrite ReplaceAll_rows.
Qed.

End RenderStatsFacts.

Lemma renderStats_strips_padding_witness :
  outputFormat newStatOptionsBase <> "json"
  /\ single_line "NAME   MESHED" = true
  /\ renderStats 3 (padded_table 3 ["NAME   MESHED"; "web      1/1"])
       newStatOptionsBase
     = Some (plain_table ["NAME   MESHED"; "web      1/1"]).
Proof.
  assert (H1 : outputFormat newStatOptionsBase <> "json") by discriminate.
  split; [exact H1 | split; [reflexivity|]].
  apply (proj2 (proj2 (renderStats_strips_padding 3 "" "NAME   MESHED"
                         ["web      1/1"] newStatOptionsBase) H1));
    [reflexivity | by repeat constructor].
Defined.

End CmdFacts.

(* --------------------------------------------------------------------- *)
(** ** Profile derivation *)
(* --------------------------------------------------------------------- *)

Module ProfilesFacts.
Import Profiles.

(** Induction on a definition tree, with the hypothesis available for all
    child elements. *)
Lemma Visitee_tree_ind (P : Visitee -> Prop) :
  (forall n, P (Package n)) ->
  (forall n els, Forall P els -> P (Service n els)) ->
  (forall n p els, Forall P els -> P (RPC n p els)) ->
  (forall els, Forall P els -> P (Other els)) ->
  forall v, P v.
Proof.
  intros HP HS HR HO. fix IH 1.
  intros [n|n els|n p els|els].
  - apply HP.
  - apply HS. induction els as [|e els IHels]; constructor; [apply IH | exact IHels].
  - apply HR. induction els as [|e els IHels]; constructor; [apply IH | exact IHels].
  - apply HO. induction els as [|e els IHels]; constructor; [apply IH | exact IHels].
Qed.

Section WalkFacts.
Context {S : Type} (h : S -> Visitee -> S).

(** Unfolding of the walk at a node: handler first, then the children. *)
Lemma walk_element_unfold v st :
  walk_element h v st =
  match v with
  | Package _ => h st v
  | Service _ els | RPC _ _ els | Other els => walk h els (h st v)
  end.
Proof.
  destruct v as [n|n els|n p els|els]; simpl; try reflexivity;
    generalize (h st _); induction els as [|e els IH]; intros s; simpl; auto.
Qed.

Lemma walk_app l1 l2 st : walk h (l1 ++ l2) st = walk h l2 (walk h l1 st).
Proof. revert st. induction l1 as [|e l1 IH]; intros st; simpl; auto. Qed.

End WalkFacts.

(** Nodes without packages, services and methods leave the handler's
    variables as they are. *)
Lemma walk_plain v : forall st, plain v = true -> walk_element handle v st = st.
Proof.
  induction v as [n|n els IH|n p els IH|els IH] using Visitee_tree_ind;
    intros st Hv; try discriminate.
  rewrite walk_element_unfold. simpl. simpl in Hv.
  induction IH as [|e els He _ IHels]; simpl; [reflexivity|].
  simpl in Hv. apply andb_prop in Hv as [H1 H2].
  rewrite He by exact H1. by apply IHels.
Qed.

Lemma walk_plain_list els st :
  forallb plain els = true -> walk handle els st = st.
Proof.
  revert st. induction els as [|e els IH]; intros st Hv; simpl; [reflexivity|].
  simpl in Hv. apply andb_prop in Hv as [H1 H2].
  rewrite walk_plain by exact H1. by apply IH.
Qed.

(** Walking a service block appends one route per method, in order. *)
Lemma walk_service_block service block : forall st,
  forallb (wf_service_element service) block = true ->
  walk handle block st =
  {| pkg := pkg st;
     routes := routes st ++ (route_of (pkg st) service <$> methods_of block) |}.
Proof.
  induction block as [|e block IH]; intros st Hwf; simpl.
  - rewrite app_nil_r. by destruct st.
  - simpl in Hwf. apply andb_prop in Hwf as [He Hblock].
    rewrite walk_element_unfold.
    destruct e as [n|n els|n [s|] els|els]; simpl in He; try discriminate.
    + apply andb_prop in He as [Hs Hels]. apply String.eqb_eq in Hs. subst s.
      rewrite (walk_plain_list els) by exact Hels.
      rewrite IH by exact Hblock. simpl.
      unfold methods_of. simpl. by rewrite <- app_assoc.
    + rewrite (walk_plain_list els) by exact He. simpl. by apply IH.
Qed.

Lemma walk_top top : forall st,
  wf_parsed top = true ->
  routes (walk handle top st) = (routes st ++ routes_from (pkg st) top)%list.
Proof.
  induction top as [|e top IH]; intros st Hwf; simpl.
  - by rewrite app_nil_r.
  - unfold wf_parsed in Hwf. simpl in Hwf. apply andb_prop in Hwf as [He Htop].
    rewrite walk_element_unfold.
    destruct e as [n|n els|n p els|els]; simpl in He; try discriminate.
    + rewrite IH by exact Htop. reflexivity.
    + simpl. rewrite (walk_service_block n els) by exact He.
      rewrite IH by exact Htop. simpl. by rewrite <- app_assoc.
    + rewrite (walk_plain_list els) by exact He. simpl. by apply IH.
Qed.

Lemma last_package_snoc before e :
  last_package (before ++ [e]) =
  match e with Package p => p | _ => last_package before end.
Proof.
  unfold last_package. rewrite omap_app. simpl.
  destruct e; simpl; rewrite ?app_nil_r; try reflexivity.
  by rewrite last_snoc.
Qed.

(** The positional reading (package = last declaration before the block)
    agrees with the recursion. *)
Lemma spec_routes_from before top :
  mjoin (imap (fun i e =>
                 match e with
                 | Service s block =>
                     route_of (last_package (take (length before + i) (before ++ top))) s
                       <$> methods_of block
                 | _ => []
                 end) top)
  = routes_from (last_package before) top.
Proof.
  revert before. induction top as [|e top IH]; intros before; [reflexivity|].
  rewrite imap_cons. simpl mjoin.
  rewrite Nat.add_0_r, take_app_length.
  assert (Htail :
    mjoin (imap ((fun i e0 =>
                 match e0 with
                 | Service s block =>
                     route_of (last_package (take (length before + i) (before ++ e :: top))) s
                       <$> methods_of block
                 | _ => []
                 end) ∘ Datatypes.S) top)
    = routes_from (last_package (before ++ [e])) top).
  { rewrite <- IH. f_equal. apply imap_ext. intros i x _. simpl.
    rewrite length_app. simpl.
    replace (length before + Datatypes.S i) with (length before + 1 + i) by lia.
    by rewrite <- app_assoc. }
  rewrite Htail, last_package_snoc.
  destruct e; reflexivity.
Qed.

Lemma spec_routes_eq definition :
  spec_routes definition = routes_from "" definition.
Proof. exact (spec_routes_from [] definition). Qed.

Example QuoteMeta_specials : QuoteMeta "a.b*c/$d" = "a\.b\*c/\$d".
Proof. reflexivity. Qed.

(** A method whose parent is not a service yields no route, and a package
    declared later applies to later services only. *)
Example routes_follow_walk_order :
  routes (walk handle
            [ Service "A" [ RPC "M" (ParentService "A") [] ];
              RPC "Stray" ParentOther [];
              Package "p";
              Service "B" [ RPC "N" (ParentService "B") [] ] ]
            {| pkg := ""; routes := [] |})
  = [ route_of "" "A" "M"; route_of "p" "B" "N" ].
Proof. reflexivity. Qed.

(** C2: for a parsed definition, the derived profile has exactly one route
    per method declared in a service block, in declaration order, named
    after the method, with method POST and as path the quoted
    [/<package>.<service>/<method>], the package being the last one declared
    before the block (empty if none). The definition with package
    [emojivoto.v1], service [VotingService] and method [VoteFish] yields the
    single route [VoteFish] with path [/emojivoto\.v1\.VotingService/VoteFish]. *)
Theorem derived_routes_per_method (meta : TypeMeta) (definition : Proto)
    (namespace name : string) :
  wf_parsed definition = true ->
  (exists profile,
     protoToServiceProfile meta (inr definition) namespace name
     = (Some profile, None)
     /\ Routes (Spec profile) = spec_routes definition)
  /\ (exists profile,
        protoToServiceProfile meta (inr emojivoto_definition) namespace name
        = (Some profile, None)
        /\ Routes (Spec profile)
           = [ {| Name := "VoteFish";
                  Condition :=
                    {| Method := "POST";
                       PathRegex := "/emojivoto\.v1\.VotingService/VoteFish" |} |} ]).
Proof.
  intros Hwf. split.
  - eexists. split; [reflexivity|]. simpl.
    rewrite walk_top by exact Hwf. by rewrite spec_routes_eq.
  - eexists. split; reflexivity.
Qed.

Lemma derived_routes_per_method_witness :
  wf_parsed emojivoto_definition = true
  /\ exists profile,
       protoToServiceProfile example_Meta (inr emojivoto_definition)
         "emojivoto" "voting-svc" = (Some profile, None)
       /\ Routes (Spec profile) = spec_routes emojivoto_definition.
Proof.
  split; [reflexivity|].
  exact (proj1 (derived_routes_per_method example_Meta emojivoto_definition
                  "emojivoto" "voting-svc" eq_refl)).
Defined.

Lemma adds_routes_refl st : adds_routes st st [].
Proof. exists []. by rewrite app_nil_r. Qed.

Lemma adds_routes_trans st1 st2 st3 n1 n2 :
  adds_routes st1 st2 n1 -> adds_routes st2 st3 n2 ->
  adds_routes st1 st3 (n1 ++ n2)%list.
Proof.
  intros (r1 & H1 & Hn1 & Hf1) (r2 & H2 & Hn2 & Hf2).
  exists (r1 ++ r2)%list. rewrite H2, H1, <- app_assoc, fmap_app, Hn1, Hn2.
  split; [done | split; [done|]]. by apply Forall_app.
Qed.

Lemma adds_routes_handle st v :
  adds_routes st (handle st v)
    match v with RPC name (ParentService _) _ => [name] | _ => [] end.
Proof.
  destruct v as [n|n els|n [s|] els|els]; simpl; try apply adds_routes_refl.
  - exists []. by rewrite app_nil_r.
  - eexists [_]. split; [reflexivity | split; [reflexivity|]].
    constructor; [|constructor]. split; [reflexivity|]. simpl. eauto.
Qed.

Lemma adds_routes_walk_list els :
  Forall (fun v => forall st,
            adds_routes st (walk_element handle v st) (service_methods v)) els ->
  forall st, adds_routes st (walk handle els st)
               (concat (map service_methods els)).
Proof.
  induction 1 as [|e els He _ IH]; intros st; simpl.
  - apply adds_routes_refl.
  - eapply adds_routes_trans; [apply He | apply IH].
Qed.

Lemma adds_routes_walk_element v :
  forall st, adds_routes st (walk_element handle v st) (service_methods v).
Proof.
  induction v as [n|n els IH|n p els IH|els IH] using Visitee_tree_ind;
    intros st; rewrite walk_element_unfold.
  - exact (adds_routes_handle st (Package n)).
  - exact (adds_routes_trans _ _ _ _ _ (adds_routes_handle st (Service n els))
             (adds_routes_walk_list els IH _)).
  - exact (adds_routes_trans _ _ _ _ _ (adds_routes_handle st (RPC n p els))
             (adds_routes_walk_list els IH _)).
  - exact (adds_routes_trans _ _ _ _ _ (adds_routes_handle st (Other els))
             (adds_routes_walk_list els IH _)).
Qed.

Lemma adds_routes_walk definition :
  forall st, adds_routes st (walk handle definition st)
               (concat (map service_methods definition)).
Proof.
  apply adds_routes_walk_list, Forall_forall. intros v _.
  apply adds_routes_walk_element.
Qed.

(** C5: whatever the namespace and the service name, the profile derived
    from a definition is named [<service>.<namespace>.svc.cluster.local],
    lies in the given namespace and has the type of a service profile. Its
    routes are the ordered list of the derivation: for a parsed definition,
    one route per method of each service block in declaration order, with
    method POST and the quoted path [/<package>.<service>/<method>]; for a
    definition of any shape, the routes are named after the methods whose
    parent is a service, in the order of the walk. *)
Theorem derived_profile_metadata (meta : TypeMeta) (definition : Proto)
    (namespace name : string) :
  exists profile,
    protoToServiceProfile meta (inr definition) namespace name
    = (Some profile, None)
    /\ ObjectMeta_Name (SP_ObjectMeta profile)
       = name ++ "." ++ namespace ++ ".svc.cluster.local"
    /\ ObjectMeta_Namespace (SP_ObjectMeta profile) = namespace
    /\ SP_TypeMeta profile = meta
    /\ (wf_parsed definition = true ->
        Routes (Spec profile) = spec_routes definition)
    /\ Name <$> Routes (Spec profile) = concat (map service_methods definition).
Proof.
  eexists. split; [reflexivity|]. simpl.
  split; [reflexivity | split; [reflexivity | split; [reflexivity | split]]].
  - intros Hwf. rewrite walk_top by exact Hwf. by rewrite spec_routes_eq.
  - destruct (adds_routes_walk definition {| pkg := ""; routes := [] |})
      as (rs & Hrs & Hnames & _).
    simpl in Hrs. by rewrite Hrs.
Qed.

Lemma derived_profile_metadata_witness :
  exists profile,
    protoToServiceProfile example_Meta (inr emojivoto_parsed)
      "emojivoto" "voting-svc" = (Some profile, None)
    /\ ObjectMeta_Name (SP_ObjectMeta profile)
       = "voting-svc.emojivoto.svc.cluster.local"
    /\ ObjectMeta_Namespace (SP_ObjectMeta profile) = "emojivoto"
    /\ Routes (Spec profile)
       = [ route_of "emojivoto.v1" "VotingService" "VoteFish" ].
Proof.
  destruct (derived_profile_metadata example_Meta emojivoto_parsed
              "emojivoto" "voting-svc")
    as (profile & Hp & Hname & Hns & _ & Hroutes & _).
  exists profile.
  split; [exact Hp | split; [exact Hname | split; [exact Hns|]]].
  exact (Hroutes eq_refl).
Defined.



(** Whatever the shape of the definition, the derived profile has one route
    per method whose parent is a service, named after the method, in the
    order of the walk; every route has method POST and a quoted path of the
    form [/<package>.<service>/<method>]. A parse error is returned as it
    is, without a profile. *)
Theorem derived_routes_are_post_routes (meta : TypeMeta) (definition : Proto)
    (err : error) (namespace name : string) :
  (exists profile,
     protoToServiceProfile meta (inr definition) namespace name
     = (Some profile, None)
     /\ Name <$> Routes (Spec profile) = concat (map service_methods definition)
     /\ Forall (fun r => Method (Condition r) = "POST"
                         /\ exists package service,
                              PathRegex (Condition r)
                              = QuoteMeta ("/" ++ package ++ "." ++ service
                                           ++ "/" ++ Name r))
               (Routes (Spec profile)))
  /\ protoToServiceProfile meta (inl err) namespace name = (None, Some err).
Proof.
  split; [|reflexivity].
  eexists. split; [reflexivity|]. simpl.
  destruct (adds_routes_walk definition {| pkg := ""; routes := [] |})
    as (rs & Hrs & Hnames & Hall).
  simpl in Hrs. rewrite Hrs. by split.
Qed.

Lemma unquote_QuoteMeta s : unquote (QuoteMeta s) = s.
Proof.
  induction s as [|b s IH]; [reflexivity|]. simpl.
  destruct (special b) eqn:Hb; simpl.
  - by rewrite IH.
  - destruct (Ascii.eqb_spec b "\") as [->|_]; [discriminate|]. by rewrite IH.
Qed.

(** Quoting loses nothing: read back with every backslash making the next
    byte literal, the path of a route is the plain [/<package>.<service>/<method>],
    so routes of different methods, services or packages never share a
    path expression unless the plain paths coincide; a path without
    metacharacters is left as it is. *)
Theorem route_path_reads_back (package service method : string)
    (package' service' method' : string) :
  unquote (PathRegex (Condition (route_of package service method)))
  = "/" ++ package ++ "." ++ service ++ "/" ++ method
  /\ (PathRegex (Condition (route_of package service method))
      = PathRegex (Condition (route_of package' service' method'))
      <-> "/" ++ package ++ "." ++ service ++ "/" ++ method
          = "/" ++ package' ++ "." ++ service' ++ "/" ++ method')
  /\ (forall s, forallb (fun b => negb (special b)) (list_ascii_of_string s) = true ->
        QuoteMeta s = s).
Proof.
  unfold route_of. cbn [PathRegex Condition].
  split; [apply unquote_QuoteMeta | split].
  - split; intros H; [|by rewrite H].
    apply (f_equal unquote) in H. by rewrite !unquote_QuoteMeta in H.
  - intros s. induction s as [|b s IH]; [reflexivity|]. simpl.
    intros [Hb Hs]%andb_prop. apply negb_true_iff in Hb. rewrite Hb.
    by rewrite IH.
Qed.

End ProfilesFacts.

(* --------------------------------------------------------------------- *)
(** ** The fan-out of getPrometheusMetrics *)
(* --------------------------------------------------------------------- *)

Module PrometheusFacts.
Import Prometheus.

Section FanoutFacts.
Context {Vector : Type}.
Variable Query : nat -> string -> error + @Value Vector.
Variable Sprintf : string -> list string -> string.
Variable templates : gmap promType string.
Variables latencyTemplate labels timeWindow groupBy : string.

Local Abbreviation Launched :=
  (launched Query Sprintf templates latencyTemplate labels timeWindow groupBy).
Local Abbreviation Init :=
  (init Query Sprintf templates latencyTemplate labels timeWindow groupBy).
Local Abbreviation Reachable :=
  (reachable Query Sprintf templates latencyTemplate labels timeWindow groupBy).
Local Abbreviation Step := (step templates).
Local Abbreviation Returned := (returned templates).
Local Abbreviation Iterations := (iterations templates).
Local Abbreviation inv :=
  (inv Query Sprintf templates latencyTemplate labels timeWindow groupBy).

Lemma launched_length : length Launched = Iterations.
Proof.
  unfold launched, iterations.
  rewrite length_app, !length_imap, length_map_to_list. lia.
Qed.

Lemma inv_init : inv Init.
Proof. by split. Qed.

Lemma inv_receive st k result :
  inv st -> senders st !! k = Some result -> inv (receive k result st).
Proof.
  intros [Hp Hc He Hr] Hk. split; simpl.
  - rewrite <- Hp, <- app_assoc. apply Permutation_app_head. simpl.
    symmetry. by apply delete_Permutation.
  - rewrite length_app. simpl. lia.
  - unfold errors_received in *. simpl. rewrite omap_app. simpl.
    destruct (err result) as [e|]; simpl.
    + by rewrite last_snoc.
    + by rewrite app_nil_r.
  - rewrite filter_app, Hr.
    destruct (err result) as [e|] eqn:Eerr.
    + rewrite filter_cons_False by (rewrite Eerr; discriminate).
      by rewrite filter_nil, app_nil_r.
    + by rewrite filter_cons_True, filter_nil by exact Eerr.
Qed.

Lemma inv_step st st' : inv st -> Step st st' -> inv st'.
Proof. intros Hinv Hstep. destruct Hstep. by apply inv_receive. Qed.

Lemma reachable_inv st : Reachable st -> inv st.
Proof.
  revert st. apply (rtc_ind_r inv Init).
  - apply inv_init.
  - intros st st' _ Hstep Hinv. by eapply inv_step.
Qed.

(** Goroutines still blocked and messages received add up to the number of
    sub-queries launched. *)
Lemma inv_outstanding st :
  inv st -> i st + length (senders st) = Iterations.
Proof.
  intros [Hp Hc _ _]. rewrite <- launched_length, <- Hp, length_app. lia.
Qed.

(** While the loop runs some goroutine is ready to send. *)
Lemma progress st :
  inv st -> i st < Iterations -> exists st', Step st st'.
Proof.
  intros Hinv Hlt. pose proof (inv_outstanding st Hinv) as Hout.
  destruct (senders st) as [|result rest] eqn:Es; simpl in Hout; [lia|].
  exists (receive 0 result st). apply step_receive; [exact Hlt|].
  by rewrite Es.
Qed.

Lemma step_counts (st st' : @state Vector) :
  Step st st' -> i st' = Datatypes.S (i st).
Proof. by intros []. Qed.

(** Every execution can be run to the end of the loop. *)
Lemma completes n : forall st,
  Reachable st -> Iterations - i st = n ->
  exists st', Reachable st' /\ i st' = Iterations.
Proof.
  induction n as [|n IH]; intros st Hr Hn.
  - exists st. split; [exact Hr|].
    pose proof (inv_outstanding st (reachable_inv st Hr)). lia.
  - destruct (progress st (reachable_inv st Hr)) as [st' Hstep]; [lia|].
    apply (IH st').
    + by eapply rtc_r.
    + rewrite (step_counts _ _ Hstep). lia.
Qed.

Lemma returns_exists : exists st, Reachable st /\ is_Some (Returned st).
Proof.
  destruct (completes (Iterations - 0) Init) as (st & Hr & Hi);
    [apply rtc_refl | reflexivity |].
  exists st. split; [exact Hr|].
  unfold returned. rewrite decide_False by lia.
  destruct (loop_err st); eauto.
Qed.

(** At the return all sub-queries have completed. *)
Lemma returned_joined st ret :
  Reachable st -> Returned st = Some ret ->
  senders st = [] /\ received st ≡ₚ Launched
  /\ length (received st) = Iterations.
Proof.
  intros Hr Hret. pose proof (reachable_inv st Hr) as Hinv.
  pose proof (inv_outstanding st Hinv) as Hout.
  unfold returned in Hret. destruct (decide (i st < Iterations)); [discriminate|].
  assert (Hs : senders st = []) by (apply length_zero_iff_nil; lia).
  destruct Hinv as [Hp Hc _ _]. rewrite Hs, app_nil_r in Hp.
  split; [exact Hs | split; [exact Hp|]]. rewrite Hs in Hout. simpl in Hout. lia.
Qed.

Lemma try_receive_step k (st st' : @state Vector) :
  try_receive templates k st = Some st' -> Step st st'.
Proof.
  unfold try_receive. intros H.
  destruct (decide (i st < Iterations)); [|discriminate].
  destruct (senders st !! k) as [result|] eqn:Ek; [|discriminate].
  injection H as <-. by apply step_receive.
Qed.

Lemma run_rtc schedule : forall st st' : @state Vector,
  run templates schedule st = Some st' -> rtc Step st st'.
Proof.
  induction schedule as [|k schedule IH]; intros st st' H; simpl in H.
  - injection H as <-. apply rtc_refl.
  - destruct (try_receive templates k st) as [st1|] eqn:Ek; [|discriminate].
    eapply rtc_l; [by apply (try_receive_step k) | by apply IH].
Qed.

(** The executions of the transition system are the runs under some
    schedule. *)
Lemma reachable_run st :
  Reachable st <-> exists schedule, run templates schedule Init = Some st.
Proof.
  split.
  - revert st. apply (rtc_ind_r (fun st => exists schedule,
                                   run templates schedule Init = Some st) Init).
    + by exists [].
    + intros st st' _ Hstep [schedule Hrun]. destruct Hstep as [st k result Hi Hk].
      exists (schedule ++ [k])%list. clear -Hrun Hi Hk.
      revert Hrun. generalize Init. induction schedule as [|k0 schedule IH];
        intros st0 Hrun; simpl in *.
      * injection Hrun as ->. unfold try_receive.
        by rewrite decide_True, Hk by exact Hi.
      * destruct (try_receive templates k0 st0); [by apply IH | discriminate].
  - intros [schedule Hrun]. by eapply run_rtc.
Qed.

(** C1: in a call in which some sub-query fails, the loop never blocks and
    the call does return; when it returns, every launched sub-query has
    handed over its message (none is left blocked, and the messages received
    are, up to order, those of the launched sub-queries, one per request
    template and one per quantile), the result is nil, and the error is that
    of the last failed sub-query received. *)
Theorem fanout_failure_joins_all :
  (exists result, result ∈ Launched /\ is_Some (err result)) ->
  (exists st, Reachable st /\ is_Some (Returned st))
  /\ forall st, Reachable st ->
       (i st < Iterations -> exists st', Step st st')
       /\ forall ret, Returned st = Some ret ->
            senders st = []
            /\ received st ≡ₚ Launched
            /\ length (received st) = length quantiles + size templates
            /\ exists e, ret = (None, Some e)
                         /\ last (errors_received st) = Some e.
Proof.
  intros (bad & Hbad & [e0 He0]). split; [apply returns_exists|].
  intros st Hr. split; [apply progress, reachable_inv, Hr|].
  intros ret Hret.
  destruct (returned_joined st ret Hr Hret) as (Hs & Hp & Hlen).
  split; [exact Hs | split; [exact Hp | split; [exact Hlen|]]].
  destruct (reachable_inv st Hr) as [_ _ He _].
  assert (Hin : e0 ∈ errors_received st).
  { unfold errors_received. apply list_elem_of_omap. exists bad.
    split; [by rewrite Hp | exact He0]. }
  unfold returned in Hret.
  destruct (decide (i st < Iterations)); [discriminate|].
  destruct (loop_err st) as [e|] eqn:Ee.
  - exists e. split; [congruence | by rewrite <- He].
  - symmetry in He. apply last_None in He. rewrite He in Hin.
    by apply elem_of_nil in Hin.
Qed.

(** C4: in a call in which every sub-query succeeds, the call returns a nil
    error and one result per sub-query: as many as there are request
    templates plus three, namely, up to order, one tagged with the key of
    each request template and one with each of the quantiles 0.5, 0.95 and
    0.99, each carrying the vector that its query returned. *)
Theorem fanout_success_one_result_per_query :
  (forall result, result ∈ Launched -> err result = None) ->
  (exists st, Reachable st /\ is_Some (Returned st))
  /\ forall st ret, Reachable st -> Returned st = Some ret ->
       ret = (Some (results st), None)
       /\ length (results st) = size templates + 3
       /\ results st ≡ₚ
            imap (fun k '(pt, template) =>
                    {| prom := pt;
                       vec := (queryProm Query k
                                 (Sprintf template [labels; timeWindow; groupBy])).1;
                       err := None |})
                 (map_to_list templates)
            ++ imap (fun k quantile =>
                       {| prom := quantile;
                          vec := (queryProm Query (size templates + k)
                                    (Sprintf latencyTemplate
                                       [quantile; labels; timeWindow; groupBy])).1;
                          err := None |})
                    [promLatencyP50; promLatencyP95; promLatencyP99].
Proof.
  intros Hok. split; [apply returns_exists|].
  intros st ret Hr Hret.
  destruct (returned_joined st ret Hr Hret) as (Hs & Hp & Hlen).
  destruct (reachable_inv st Hr) as [_ _ He Hres].
  assert (Hall : Forall (fun r => err r = None) (received st)).
  { apply Forall_forall. intros r Hin. apply Hok. by rewrite <- Hp. }
  assert (Hresults : results st = received st).
  { rewrite Hres. clear -Hall. induction Hall as [|r l Hr _ IH]; [done|].
    rewrite filter_cons_True by exact Hr. by rewrite IH. }
  assert (Herrs : errors_received st = []).
  { unfold errors_received. clear -Hall.
    induction Hall as [|r l Hr _ IH]; [done|]. simpl. by rewrite Hr. }
  split; [|split].
  - unfold returned in Hret.
    destruct (decide (i st < Iterations)); [discriminate|].
    rewrite He, Herrs in Hret. simpl in Hret. congruence.
  - rewrite Hresults, Hlen. unfold iterations, quantiles. simpl. lia.
  - rewrite Hresults, Hp.
    assert (Hstrip : Launched
      = (fun r => {| prom := prom r; vec := vec r; err := None |}) <$> Launched).
    { clear -Hok. induction Launched as [|r l IH]; [done|]. simpl. f_equal.
      - rewrite <- (Hok r) by apply list_elem_of_here. by destruct r.
      - apply IH. intros r' Hin. apply Hok. by apply list_elem_of_further. }
    rewrite Hstrip. unfold launched.
    rewrite fmap_app, !fmap_imap.
    apply Permutation_app;
      match goal with |- ?a ≡ₚ ?b => cut (a = b); [by intros -> |] end.
    + apply imap_ext. intros k [pt template] _. simpl.
      unfold requestGoroutine. by destruct (queryProm _ _ _).
    + apply imap_ext. intros k quantile _. simpl.
      unfold latencyGoroutine. by destruct (queryProm _ _ _).
Qed.

End FanoutFacts.

(** With one request template there are four sub-queries; a schedule of
    three receives leaves the call in its loop. *)
Example getPrometheusMetrics_launch_order :
  getPrometheusMetrics failing_Query example_Sprintf example_templates
    "latency%s%s%s%s" "{}" "1m" "namespace" [0; 0; 0; 0]
  = Some (None, Some "context deadline exceeded").
Proof. vm_compute. reflexivity. Qed.

Example getPrometheusMetrics_other_order :
  getPrometheusMetrics failing_Query example_Sprintf example_templates
    "latency%s%s%s%s" "{}" "1m" "namespace" [1; 0; 0; 0]
  = Some (None, Some "connection refused").
Proof. vm_compute. reflexivity. Qed.

Example getPrometheusMetrics_still_running :
  getPrometheusMetrics healthy_Query example_Sprintf example_templates
    "latency%s%s%s%s" "{}" "1m" "namespace" [1; 0; 1]
  = None.
Proof. vm_compute. reflexivity. Qed.

Example getPrometheusMetrics_healthy :
  getPrometheusMetrics healthy_Query example_Sprintf example_templates
    "latency%s%s%s%s" "{}" "1m" "namespace" [1; 0; 1; 0]
  = Some (Some [ {| prom := "0.5"; vec := Some [1%Z]; err := None |};
                 {| prom := "QUERY_REQUESTS"; vec := Some [0%Z]; err := None |};
                 {| prom := "0.99"; vec := Some [3%Z]; err := None |};
                 {| prom := "0.95"; vec := Some [2%Z]; err := None |} ],
          None).
Proof. vm_compute. reflexivity. Qed.

Lemma fanout_failure_joins_all_witness :
  (exists result,
     result ∈ launched failing_Query example_Sprintf example_templates
                "latency%s%s%s%s" "{}" "1m" "namespace"
     /\ is_Some (err result))
  /\ exists st,
       reachable failing_Query example_Sprintf example_templates
         "latency%s%s%s%s" "{}" "1m" "namespace" st
       /\ is_Some (returned example_templates st).
Proof.
  assert (H : exists result,
            result ∈ launched failing_Query example_Sprintf example_templates
                       "latency%s%s%s%s" "{}" "1m" "namespace"
            /\ is_Some (err result)).
  { exists {| prom := promRequests; vec := None; err := Some "connection refused" |}.
    split; [vm_compute; apply list_elem_of_here | by eexists]. }
  split; [exact H|].
  exact (proj1 (fanout_failure_joins_all failing_Query example_Sprintf
                  example_templates "latency%s%s%s%s" "{}" "1m" "namespace" H)).
Defined.

(** C1, as first stated: the error returned would be the first one
    encountered. With two failing sub-queries it is not: the schedule that
    serves the goroutines in launch order receives "connection refused"
    first, and the call returns "context deadline exceeded". *)
Lemma fanout_first_error_not_returned :
  ~ (forall st ret,
       reachable failing_Query example_Sprintf example_templates
         "latency%s%s%s%s" "{}" "1m" "namespace" st ->
       returned example_templates st = Some ret ->
       exists e, ret = (None, Some e) /\ head (errors_received st) = Some e).
Proof.
  intros Hclaim.
  destruct (run example_templates [0; 0; 0; 0]
              (init failing_Query example_Sprintf example_templates
                 "latency%s%s%s%s" "{}" "1m" "namespace")) as [st|] eqn:Erun;
    [|by vm_compute in Erun].
  pose proof (run_rtc _ _ _ _ Erun) as Hreach.
  vm_compute in Erun. injection Erun as <-.
  destruct (Hclaim _ (None, Some "context deadline exceeded") Hreach eq_refl)
    as (e & Hret & Hfirst).
  vm_compute in Hfirst. congruence.
Qed.

Lemma fanout_success_one_result_per_query_witness :
  (forall result,
     result ∈ launched healthy_Query example_Sprintf example_templates
                "latency%s%s%s%s" "{}" "1m" "namespace" ->
     err result = None)
  /\ exists st,
       reachable healthy_Query example_Sprintf example_templates
         "latency%s%s%s%s" "{}" "1m" "namespace" st
       /\ is_Some (returned example_templates st).
Proof.
  assert (H : forall result,
            result ∈ launched healthy_Query example_Sprintf example_templates
                       "latency%s%s%s%s" "{}" "1m" "namespace" ->
            err result = None).
  { apply Forall_forall. vm_compute. repeat constructor. }
  split; [exact H|].
  exact (proj1 (fanout_success_one_result_per_query healthy_Query example_Sprintf
                  example_templates "latency%s%s%s%s" "{}" "1m" "namespace" H)).
Defined.

Section FanoutSchedules.
Context {Vector : Type}.
Variable Query : nat -> string -> error + @Value Vector.
Variable Sprintf : string -> list string -> string.
Variable templates : gmap promType string.
Variables latencyTemplate labels timeWindow groupBy : string.

Local Abbreviation Launched :=
  (launched Query Sprintf templates latencyTemplate labels timeWindow groupBy).
Local Abbreviation Reachable :=
  (reachable Query Sprintf templates latencyTemplate labels timeWindow groupBy).
Local Abbreviation Returned := (returned templates).

(** From every point of an execution the call can be run on to its
    return: the loop never waits for a message that no goroutine sends. *)
Lemma runs_to_return n : forall st : @state Vector,
  Reachable st -> iterations templates - i st = n ->
  exists st' ret, rtc (step templates) st st' /\ Reachable st'
                  /\ Returned st' = Some ret.
Proof.
  induction n as [|n IH]; intros st Hr Hn.
  - pose proof (inv_outstanding _ _ _ _ _ _ _ st
                  (reachable_inv _ _ _ _ _ _ _ st Hr)) as Hout.
    assert (Hret : is_Some (Returned st)).
    { unfold returned. rewrite decide_False by lia.
      destruct (loop_err st); eauto. }
    destruct Hret as [ret Hret]. exists st, ret.
    split; [apply rtc_refl | by split].
  - destruct (progress _ _ _ _ _ _ _ st (reachable_inv _ _ _ _ _ _ _ st Hr))
      as [st1 Hstep]; [lia|].
    destruct (IH st1) as (st' & ret & Hrun & Hr' & Hret).
    + by eapply rtc_r.
    + rewrite (step_counts _ _ _ Hstep). lia.
    + exists st', ret. split; [by eapply rtc_l | by split].
Qed.

(** At the return, the error of the call is the error of a sub-query, and
    there is none exactly when all sub-queries succeeded. *)
Lemma returned_error (st : @state Vector) ret :
  Reachable st -> Returned st = Some ret ->
  (ret.2 = None <-> forall result, result ∈ Launched -> err result = None)
  /\ (is_Some ret.1 <-> ret.2 = None)
  /\ (forall e, ret.2 = Some e ->
        exists result, result ∈ Launched /\ err result = Some e).
Proof.
  intros Hr Hret.
  destruct (returned_joined _ _ _ _ _ _ _ st ret Hr Hret) as (_ & Hp & _).
  destruct (reachable_inv _ _ _ _ _ _ _ st Hr) as [_ _ He _].
  unfold returned in Hret.
  destruct (decide (i st < iterations templates)); [discriminate|].
  assert (Hlast : forall e, loop_err st = Some e ->
            exists result, result ∈ Launched /\ err result = Some e).
  { intros e Hl. rewrite He in Hl. apply last_Some_elem_of in Hl.
    apply list_elem_of_omap in Hl as (result & Hin & Herr).
    exists result. by rewrite <- Hp. }
  destruct (loop_err st) as [e|] eqn:Ee; injection Hret as <-; simpl.
  - split; [|split].
    + split; [discriminate|]. intros Hall.
      destruct (Hlast e eq_refl) as (result & Hin & Herr).
      rewrite (Hall result Hin) in Herr. discriminate.
    + split; [by intros [? ?] | discriminate].
    + intros e' [= <-]. by apply Hlast.
  - split; [|split].
    + split; [|done]. intros _ result Hin.
      destruct (err result) as [e|] eqn:Herr; [|done].
      assert (e ∈ errors_received st).
      { apply list_elem_of_omap. exists result. by rewrite Hp. }
      symmetry in He. apply last_None in He. rewrite He in H.
      by apply elem_of_nil in H.
    + split; [done | eauto].
    + discriminate.
Qed.

(** The results of a successful call are the messages received, in the
    order received: those of the sub-queries launched, none of which
    failed. *)
Lemma returned_results (st : @state Vector) rs :
  Reachable st -> Returned st = Some (Some rs, None) ->
  rs = received st /\ rs ≡ₚ Launched
  /\ forall result, result ∈ Launched -> err result = None.
Proof.
  intros Hr Hret.
  destruct (returned_error st _ Hr Hret) as ([Hall _] & _).
  specialize (Hall eq_refl).
  destruct (returned_joined _ _ _ _ _ _ _ st _ Hr Hret) as (_ & Hp & _).
  destruct (reachable_inv _ _ _ _ _ _ _ st Hr) as [_ _ _ Hres].
  unfold returned in Hret.
  destruct (decide (i st < iterations templates)); [discriminate|].
  destruct (loop_err st); [discriminate|]. injection Hret as <-.
  assert (results st = received st) as ->; [|by split].
  rewrite Hres.
  assert (HF : Forall (fun r : promResult => err r = None) (received st)).
  { apply Forall_forall. intros result Hin. apply Hall. by rewrite <- Hp. }
  clear -HF. induction HF as [|r l Hr0 _ IH]; [done|].
  rewrite filter_cons_True by exact Hr0. by rewrite IH.
Qed.

(** Whatever the schedule, the call returns: from every point of an
    execution it can be run on to its return. Whether it fails does not
    depend on the schedule: it returns an error exactly when some sub-query
    does. It returns results or an error, never both and never neither, and
    the error is that of one of the sub-queries. *)
Theorem fanout_fails_iff_subquery_fails :
  (forall st : @state Vector, Reachable st ->
     exists st' ret, rtc (step templates) st st' /\ Returned st' = Some ret)
  /\ forall (st : @state Vector) ret,
       Reachable st -> Returned st = Some ret ->
       (ret.2 = None <-> forall result, result ∈ Launched -> err result = None)
       /\ (is_Some ret.1 <-> ret.2 = None)
       /\ (forall e, ret.2 = Some e ->
             exists result, result ∈ Launched /\ err result = Some e).
Proof.
  split.
  - intros st Hr.
    destruct (runs_to_return _ st Hr eq_refl) as (st' & ret & Hrun & _ & Hret).
    by exists st', ret.
  - apply returned_error.
Qed.

(** When no sub-query fails, the call returns its results from every point
    of an execution. A successful call returns the results in the order in
    which the messages arrived, each with a nil error; two successful runs
    of the call differ in the order of the results only. *)
Theorem fanout_results_in_arrival_order :
  ((forall result, result ∈ Launched -> err result = None) ->
   forall st : @state Vector, Reachable st ->
     exists st' rs, rtc (step templates) st st'
                    /\ Returned st' = Some (Some rs, None))
  /\ forall (st : @state Vector) rs,
       Reachable st -> Returned st = Some (Some rs, None) ->
       rs = received st
       /\ (forall result, result ∈ rs -> err result = None)
       /\ (forall st' rs', Reachable st' ->
             Returned st' = Some (Some rs', None) -> rs ≡ₚ rs').
Proof.
  split.
  - intros Hall st Hr.
    destruct (runs_to_return _ st Hr eq_refl) as (st' & ret & Hrun & Hr' & Hret).
    destruct (returned_error st' ret Hr' Hret) as ([_ Hnone] & [_ Hsome] & _).
    specialize (Hsome (Hnone Hall)). destruct ret as [[rs|] [e|]];
      simpl in *; try discriminate (Hnone Hall); [|by destruct Hsome].
    by exists st', rs.
  - intros st rs Hr Hret.
    destruct (returned_results st rs Hr Hret) as (Heq & Hperm & Hall).
    split; [exact Heq | split].
    + intros result Hin. rewrite Hperm in Hin. by apply Hall.
    + intros st' rs' Hr' Hret'.
      destruct (returned_results st' rs' Hr' Hret') as (_ & Hperm' & _).
      by rewrite Hperm, Hperm'.
Qed.

End FanoutSchedules.

Lemma fanout_fails_iff_subquery_fails_witness :
  exists st,
    reachable failing_Query example_Sprintf example_templates
      "latency%s%s%s%s" "{}" "1m" "namespace" st
    /\ returned example_templates st
       = Some (None, Some "context deadline exceeded")
    /\ exists result,
         result ∈ launched failing_Query example_Sprintf example_templates
                    "latency%s%s%s%s" "{}" "1m" "namespace"
         /\ err result = Some "context deadline exceeded".
Proof.
  destruct (run example_templates [0; 0; 0; 0]
              (init failing_Query example_Sprintf example_templates
                 "latency%s%s%s%s" "{}" "1m" "namespace")) as [st|] eqn:Erun;
    [|by vm_compute in Erun].
  pose proof (run_rtc _ _ _ _ Erun) as Hreach.
  assert (Hret : returned example_templates st
                 = Some (None, Some "context deadline exceeded")).
  { vm_compute in Erun. by injection Erun as <-. }
  exists st. split; [exact Hreach | split; [exact Hret|]].
  exact (proj2 (proj2 (proj2 (fanout_fails_iff_subquery_fails failing_Query
                                example_Sprintf example_templates
                                "latency%s%s%s%s" "{}" "1m" "namespace")
                         st _ Hreach Hret))
           "context deadline exceeded" eq_refl).
Defined.

Lemma fanout_results_in_arrival_order_witness :
  (forall result,
     result ∈ launched healthy_Query example_Sprintf example_templates
                "latency%s%s%s%s" "{}" "1m" "namespace" ->
     err result = None)
  /\ exists st rs,
       rtc (step example_templates)
         (init healthy_Query example_Sprintf example_templates
            "latency%s%s%s%s" "{}" "1m" "namespace") st
       /\ returned example_templates st = Some (Some rs, None).
Proof.
  assert (H : forall result,
            result ∈ launched healthy_Query example_Sprintf example_templates
                       "latency%s%s%s%s" "{}" "1m" "namespace" ->
            err result = None).
  { apply Forall_forall. vm_compute. repeat constructor. }
  split; [exact H|].
  exact (proj1 (fanout_results_in_arrival_order healthy_Query example_Sprintf
                  example_templates "latency%s%s%s%s" "{}" "1m" "namespace")
           H _ (rtc_refl _ _)).
Defined.

End PrometheusFacts.

(* --------------------------------------------------------------------- *)
(** ** Snapshot consistency of the Service Port Index *)
(* --------------------------------------------------------------------- *)

Module EndpointsFacts.
Import Endpoints.



















(** The scenario: the listener subscribed to [emojivoto/voting:8080] is
    sent the empty initial batch, the address as added with exists=true,
    the address as removed with exists=true, and exists=false at the
    deletion of the service. *)
Example scenario_deliveries :
  (fun sp => (elements (addresses sp), serviceExists sp,
              (fun sub => (delivered sub, queue sub)) <$> listeners sp !! 0))
    <$> applyAll scenario !! voting
  = Some ([], false,
          Some ([ NUpdate [] [];
                  NUpdate [voting_abc] []; NNoEndpoints true;
                  NUpdate [] [voting_abc]; NNoEndpoints true;
                  NNoEndpoints false ], [])).
Proof. vm_compute. reflexivity. Qed.





(** The collecting listener keeps all it is sent: after any sequence of
    calls, [added] and [removed] are the batches of the [Update] calls
    joined in the order of the calls, [noEndpointsCalled] tells whether
    [NoEndpoints] was ever called and [noEndpointsExists] is the argument
    of its last call. *)
Theorem collecting_listener_keeps_everything (ns : list notification) :
  added (collected ns)
  = concat (omap (fun n => match n with NUpdate add _ => Some add | _ => None end) ns)
  /\ removed (collected ns)
     = concat (omap (fun n => match n with NUpdate _ remove => Some remove
                                         | _ => None end) ns)
  /\ noEndpointsCalled (collected ns)
     = existsb (fun n => match n with NNoEndpoints _ => true | _ => false end) ns
  /\ noEndpointsExists (collected ns)
     = default false
         (last (omap (fun n => match n with NNoEndpoints e => Some e
                                          | _ => None end) ns)).
Proof.
  induction ns as [|n ns IH] using rev_ind; [done|].
  destruct IH as (Ha & Hr & Hc & He).
  unfold collected in *. rewrite foldl_snoc, !omap_app, existsb_app.
  destruct n as [add remove|e]; simpl.
  - rewrite !concat_app, Ha, Hr, Hc, He, !app_nil_r. simpl.
    by rewrite !app_nil_r, orb_false_r.
  - rewrite !app_nil_r, last_snoc, Ha, Hr. simpl.
    by rewrite orb_true_r.
Qed.

End EndpointsFacts.

(* --------------------------------------------------------------------- *)
(** ** Validation in ListPods *)
(* --------------------------------------------------------------------- *)

Module GrpcServerFacts.
Import GrpcServer.

(** C6: a [ListPods] request that sets both the namespace and a resource in
    its selector is rejected with a nil response and the error "cannot set
    both namespace and resource in the request. These are mutually
    exclusive", and no call to the cache or the metrics backend is made:
    the calls recorded are those made before, whatever the rest of
    [ListPods] would do. *)
Theorem ListPods_rejects_namespace_with_resource {ListPodsResponse : Type}
    (backends : ListPodsRequest -> list backendCall ->
                (option ListPodsResponse * option error) * list backendCall)
    (req : ListPodsRequest) (resource : Resource) (sel : ResourceSelection)
    (calls : list backendCall) :
  Namespace req <> "" ->
  Selector req = Some sel ->
  Selection_Resource sel = Some resource ->
  ListPods backends req calls
  = ((None,
      Some "cannot set both namespace and resource in the request. These are mutually exclusive"),
     calls).
Proof.
  intros Hns Hsel Hres. unfold ListPods, targetOwner. rewrite Hsel, Hres.
  destruct (String.eqb_spec (Namespace req) ""); [contradiction|].
  reflexivity.
Qed.

Lemma ListPods_rejects_namespace_with_resource_witness :
  Namespace conflicting_request <> ""
  /\ ListPods example_backends conflicting_request []
     = ((None,
         Some "cannot set both namespace and resource in the request. These are mutually exclusive"),
        []).
Proof.
  assert (H : Namespace conflicting_request <> "") by discriminate.
  split; [exact H|].
  exact (ListPods_rejects_namespace_with_resource example_backends
           conflicting_request _ _ [] H eq_refl eq_refl).
Defined.

End GrpcServerFacts.

(* --------------------------------------------------------------------- *)
(** ** The meshed flag of the resource detail page *)
(* --------------------------------------------------------------------- *)

Module ResourceDetailFacts.
Import ResourceDetail.

(** Only the first row of the stored batch counts: an unmeshed first row
    gives false although the second row is meshed. *)
Example unmeshed_first_row :
  let row m := {| name := "voting";
                  pods := Some {| totalPods := NumericString 1;
                                  meshedPods := NumericString m |};
                  totalRequests := 150 |} in
  let st1 := loadFromServer [row 0%N; row 1%N] 2000 (getInitialState 0) in
  let st2 := loadFromServer [row 1%N] 4000 st1 in
  let st3 := loadFromServer [] 6000 st2 in
  (resourceIsMeshed st1, resourceIsMeshed st2, resourceIsMeshed st3)
  = (true, false, true).
Proof. reflexivity. Qed.

(** C7: when the responses of a poll arrive, the meshed flag is true if the
    batch stored by the previous poll is empty, and otherwise it is true
    exactly when the first row of that batch has [pods.meshedPods > 0], as a
    number or as the decimal string of one; two states whose stored batches
    have the same first row get the same flag, whatever the other rows and
    the new responses are. *)
Theorem resourceIsMeshed_from_first_of_previous
    (batch : list resourceMetric) (now : Z) (st : state) :
  pendingRequests st = false ->
  (resourceIsMeshed (loadFromServer batch now st) = true
   <-> resourceMetrics st = []
       \/ exists first rest p,
            resourceMetrics st = first :: rest
            /\ pods first = Some p
            /\ ((exists z, meshedPods p = Number z /\ (0 < z)%Z)
                \/ (exists n, meshedPods p = NumericString n /\ (0 < n)%N)))
  /\ resourceMetrics (loadFromServer batch now st) = batch
  /\ forall batch' now' st',
       pendingRequests st' = false ->
       head (resourceMetrics st') = head (resourceMetrics st) ->
       resourceIsMeshed (loadFromServer batch' now' st')
       = resourceIsMeshed (loadFromServer batch now st).
Proof.
  intros Hp. unfold loadFromServer. rewrite Hp.
  split; [|split].
  - unfold onResponses. simpl.
    destruct (resourceMetrics st) as [|first rest]; [by split; [left|]|]. simpl.
    unfold get_0_pods_meshedPods. simpl. split.
    + intros H. right. exists first, rest.
      destruct (pods first) as [p|]; [|discriminate H]. exists p.
      split; [reflexivity | split; [reflexivity|]].
      destruct (meshedPods p) as [|z|n]; simpl in H; [discriminate H | |].
      * left. exists z. split; [reflexivity | by apply Z.ltb_lt].
      * right. exists n. split; [reflexivity | by apply N.ltb_lt].
    + intros [H|(f & r & q & Hf & Hpods & Hpos)]; [discriminate H|].
      injection Hf as <- <-. rewrite Hpods.
      destruct Hpos as [(z & -> & Hz)|(n & -> & Hn)]; simpl.
      * by apply Z.ltb_lt.
      * by apply N.ltb_lt.
  - reflexivity.
  - intros batch' now' st' Hp' Hhead. rewrite Hp'.
    unfold onResponses. simpl.
    destruct (resourceMetrics st) as [|first rest],
             (resourceMetrics st') as [|first' rest'];
      simpl in Hhead; try discriminate; [reflexivity|].
    injection Hhead as ->. reflexivity.
Qed.

Lemma resourceIsMeshed_from_first_of_previous_witness :
  pendingRequests example_polled = false
  /\ resourceMetrics example_polled = [example_row 0; example_row 1]
  /\ resourceIsMeshed (loadFromServer [example_row 1] 4000 example_polled) <> true
  /\ resourceIsMeshed
       (loadFromServer [] 6000
          (loadFromServer [example_row 1; example_row 0] 4000 example_polled))
     = true.
Proof.
  split; [reflexivity | split; [reflexivity | split]].
  - intros Hflag.
    apply (proj1 (proj1 (resourceIsMeshed_from_first_of_previous [example_row 1]
                           4000 example_polled eq_refl))) in Hflag.
    destruct Hflag as [Hempty|(first & rest & p & Hfirst & Hpods & Hpos)];
      [discriminate Hempty|].
    injection Hfirst as <- <-. injection Hpods as <-.
    destruct Hpos as [(z & Hz & _)|(n & Hn & Hpos)]; [discriminate Hz|].
    injection Hn as <-. by apply N.lt_irrefl in Hpos.
  - apply (proj2 (proj1 (resourceIsMeshed_from_first_of_previous [] 6000
                           (loadFromServer [example_row 1; example_row 0] 4000
                              example_polled) eq_refl))).
    right. exists (example_row 1), [example_row 0].
    eexists. split; [reflexivity | split; [reflexivity|]].
    right. exists 1%N. split; [reflexivity | reflexivity].
Defined.

Lemma poll_fulfilled batch now p :
  pendingRequests (page_state p) = false ->
  resourceMetrics (page_state (poll p (Fulfilled batch, now))) = batch
  /\ resourceIsMeshed (page_state (poll p (Fulfilled batch, now)))
     = meshedOf (resourceMetrics (page_state p))
  /\ pendingRequests (page_state (poll p (Fulfilled batch, now))) = false
  /\ error (poll p (Fulfilled batch, now)) = None.
Proof.
  intros Hp. unfold poll. rewrite Hp. simpl. repeat split.
  unfold meshedOf, get_0_pods_meshedPods.
  destruct (resourceMetrics (page_state p)) as [|first rest]; [reflexivity|].
  simpl. by destruct (pods first).
Qed.

(** The meshed flag lags one poll behind the metrics: after two polls that
    both got their responses, the page shows the batch of the second and
    the flag of the first. A failed poll in between, unless canceled, keeps
    both the stored batch and the flag, records the error and lets the next
    poll run. *)
Theorem meshed_flag_lags_one_poll (p : page) (batch1 batch2 : list resourceMetric)
    (now1 now2 now3 : Z) (e : apiError) :
  pendingRequests (page_state p) = false ->
  isCanceled e = false ->
  let p1 := poll p (Fulfilled batch1, now1) in
  let p2 := poll p1 (Fulfilled batch2, now2) in
  let p2' := poll (poll p1 (Rejected e, now2)) (Fulfilled batch2, now3) in
  resourceMetrics (page_state p2) = batch2
  /\ resourceIsMeshed (page_state p2) = meshedOf batch1
  /\ resourceMetrics (page_state (poll p1 (Rejected e, now2))) = batch1
  /\ resourceIsMeshed (page_state (poll p1 (Rejected e, now2)))
     = resourceIsMeshed (page_state p1)
  /\ error (poll p1 (Rejected e, now2)) = Some e
  /\ resourceMetrics (page_state p2') = batch2
  /\ resourceIsMeshed (page_state p2') = meshedOf batch1.
Proof.
  intros Hp He p1 p2 p2'.
  destruct (poll_fulfilled batch1 now1 p Hp) as (Hm1 & Hf1 & Hp1 & _).
  fold p1 in Hm1, Hf1, Hp1.
  destruct (poll_fulfilled batch2 now2 p1 Hp1) as (Hm2 & Hf2 & _ & _).
  assert (Hrej : poll p1 (Rejected e, now2)
                 = handleApiError e
                     {| page_state :=
                          {| resourceMetrics := resourceMetrics (page_state p1);
                             resourceIsMeshed := resourceIsMeshed (page_state p1);
                             lastMetricReceivedTime :=
                               lastMetricReceivedTime (page_state p1);
                             pendingRequests := true;
                             loaded := loaded (page_state p1) |};
                        error := error p1 |}).
  { unfold poll. by rewrite Hp1. }
  unfold handleApiError in Hrej. rewrite He in Hrej. simpl in Hrej.
  assert (Hp' : pendingRequests (page_state (poll p1 (Rejected e, now2))) = false)
    by (by rewrite Hrej).
  destruct (poll_fulfilled batch2 now3 _ Hp') as (Hm3 & Hf3 & _ & _).
  fold p2' in Hm3, Hf3. fold p2 in Hm2, Hf2.
  split; [exact Hm2|]. split; [by rewrite Hf2, Hm1|].
  split; [by rewrite Hrej|]. split; [by rewrite Hrej|]. split; [by rewrite Hrej|].
  split; [exact Hm3|]. rewrite Hf3, Hrej. simpl. by rewrite Hm1.
Qed.

Lemma meshed_flag_lags_one_poll_witness :
  pendingRequests (page_state (initialPage 0)) = false
  /\ isCanceled {| isCanceled := false; message := "Bad Gateway" |} = false
  /\ resourceIsMeshed
       (page_state
          (poll (poll (initialPage 0)
                   (Fulfilled [ {| name := "voting"; pods := None;
                                   totalRequests := 0 |} ], 2000%Z))
                (Fulfilled [], 4000%Z)))
     = false.
Proof.
  split; [reflexivity | split; [reflexivity|]].
  exact (proj1 (proj2 (meshed_flag_lags_one_poll (initialPage 0)
                         [ {| name := "voting"; pods := None; totalRequests := 0 |} ]
                         [] 2000%Z 4000%Z 6000%Z
                         {| isCanceled := false; message := "Bad Gateway" |}
                         eq_refl eq_refl))).
Defined.

(** A poll whose requests are canceled changes nothing but
    [pendingRequests], which stays set: every later tick of the timer finds
    requests pending and leaves the page as it is, until the state is set
    anew. *)
Theorem canceled_poll_suspends_polling (p : page) (e : apiError) (now : Z)
    (ticks : list (outcome * Z)) :
  pendingRequests (page_state p) = false ->
  isCanceled e = true ->
  let p' := poll p (Rejected e, now) in
  foldl poll p' ticks = p'
  /\ pendingRequests (page_state p') = true
  /\ resourceMetrics (page_state p') = resourceMetrics (page_state p)
  /\ resourceIsMeshed (page_state p') = resourceIsMeshed (page_state p)
  /\ error p' = error p.
Proof.
  intros Hp He p'.
  assert (Hp' : pendingRequests (page_state p') = true).
  { unfold p', poll, handleApiError. rewrite Hp. simpl. by rewrite He. }
  split.
  - induction ticks as [|tick ticks IH]; [reflexivity|]. simpl.
    assert (poll p' tick = p') as -> by (unfold poll at 1; by rewrite Hp').
    exact IH.
  - split; [exact Hp'|].
    unfold p', poll, handleApiError. rewrite Hp. simpl. by rewrite He.
Qed.

Lemma canceled_poll_suspends_polling_witness :
  pendingRequests (page_state (initialPage 0)) = false
  /\ isCanceled {| isCanceled := true; message := "" |} = true
  /\ foldl poll (poll (initialPage 0)
                   (Rejected {| isCanceled := true; message := "" |}, 2000%Z))
       [ (Fulfilled [], 4000%Z); (Fulfilled [], 6000%Z) ]
     = poll (initialPage 0)
         (Rejected {| isCanceled := true; message := "" |}, 2000%Z).
Proof.
  split; [reflexivity | split; [reflexivity|]].
  exact (proj1 (canceled_poll_suspends_polling (initialPage 0)
                  {| isCanceled := true; message := "" |} 2000%Z
                  [ (Fulfilled [], 4000%Z); (Fulfilled [], 6000%Z) ]
                  eq_refl eq_refl)).
Defined.

End ResourceDetailFacts.

(* --------------------------------------------------------------------- *)
(** ** Labels of the Prometheus queries *)
(* --------------------------------------------------------------------- *)

Module PromLabelsFacts.
Import GrpcServer PromLabels.

Lemma l5d_label_namespace t :
  K8s.KindToL5DLabel t = "namespace" <-> t = K8s.Namespace.
Proof.
  unfold K8s.KindToL5DLabel.
  destruct (String.eqb_spec t K8s.Job) as [->|_]; by split.
Qed.

Lemma l5d_label_not_job t : K8s.KindToL5DLabel t <> "job".
Proof.
  unfold K8s.KindToL5DLabel.
  destruct (String.eqb_spec t K8s.Job) as [->|H]; [discriminate | exact H].
Qed.

(** The group-by labels come in the order that [metricToKey] assumes: the
    namespace first, then, unless the resource is a namespace, the label
    of the resource kind and nothing more. *)
Theorem group_by_namespace_first (resource : Resource) :
  promGroupByLabelNames resource
  = (if String.eqb (Resource_Type resource) K8s.Namespace
     then ["namespace"]
     else ["namespace"; K8s.KindToL5DLabel (Resource_Type resource)])
  /\ promGroupByLabelNames resource !! 0 = Some "namespace"
  /\ NoDup (promGroupByLabelNames resource).
Proof.
  unfold promGroupByLabelNames, promResourceType.
  destruct (String.eqb_spec (Resource_Type resource) K8s.Namespace) as [He|Hne];
    simpl; repeat split.
  - apply NoDup_singleton.
  - apply NoDup_cons. split; [|apply NoDup_singleton].
    rewrite list_elem_of_singleton. intros Heq. symmetry in Heq.
    apply Hne, l5d_label_namespace. exact Heq.
Qed.


Ltac label_cases :=
  repeat match goal with
  | H : is_Some (<[_:=_]> _ !! _) |- _ =>
      apply lookup_insert_is_Some in H as [<-|[_ H]]
  | H : is_Some (∅ !! _) |- _ => by apply is_Some_None in H
  end.

Ltac in_list := repeat first [apply list_elem_of_here | apply list_elem_of_further].

Theorem query_labels_are_grouped (resource : Resource) :
  dom (promQueryLabels (Some resource))
    ⊆ list_to_set (promGroupByLabelNames resource)
  /\ promQueryLabels (Some resource) !! "job" = None
  /\ promQueryLabels None = ∅
  /\ (Resource_Name resource <> "" ->
      Resource_Type resource <> K8s.Service ->
      promQueryLabels (Some resource) !! promResourceType resource
      = Some (Resource_Name resource)).
Proof.
  destruct resource as [ns t n]. simpl.
  pose proof (l5d_label_not_job t) as Hjob.
  pose proof (l5d_label_namespace t) as Hns.
  split; [|split; [|split]].
  - apply elem_of_subseteq. intros k. rewrite elem_of_dom, elem_of_list_to_set.
    unfold promQueryLabels, promGroupByLabelNames, shouldAddNamespaceLabel,
      promResourceType, namespaceLabel. simpl.
    destruct (String.eqb_spec t K8s.Namespace) as [->|Ht]; simpl;
      repeat match goal with
             | |- context [if ?b then _ else _] => destruct b
             end;
      simpl; intros H; label_cases; in_list.
  - unfold promQueryLabels, shouldAddNamespaceLabel, promResourceType, namespaceLabel.
    simpl.
    destruct (negb (n =? "") && negb (t =? K8s.Service)),
             (negb (t =? K8s.Namespace) && negb (ns =? ""));
      rewrite ?lookup_insert_ne, ?lookup_empty by done; done.
  - reflexivity.
  - intros Hn Hs. simpl in Hn, Hs.
    unfold promQueryLabels, shouldAddNamespaceLabel, promResourceType, namespaceLabel.
    simpl.
    destruct (String.eqb_spec n "") as [|_]; [done|].
    destruct (String.eqb_spec t K8s.Service) as [|_]; [done|]. simpl.
    destruct (String.eqb_spec t K8s.Namespace) as [->|Ht]; simpl.
    + by rewrite lookup_insert_eq.
    + destruct (negb (ns =? "")).
      * rewrite lookup_insert_ne; [by rewrite lookup_insert_eq|].
        intros Heq. symmetry in Heq. by apply Ht, Hns.
      * by rewrite lookup_insert_eq.
Qed.

Lemma query_labels_are_grouped_witness :
  Resource_Name {| Resource_Namespace := "emojivoto"; Resource_Type := K8s.Job;
                   Resource_Name := "vote-bot" |} <> ""
  /\ promQueryLabels
       (Some {| Resource_Namespace := "emojivoto"; Resource_Type := K8s.Job;
                Resource_Name := "vote-bot" |}) !! "k8s_job"
     = Some "vote-bot".
Proof.
  assert (H1 : Resource_Name {| Resource_Namespace := "emojivoto";
                                Resource_Type := K8s.Job;
                                Resource_Name := "vote-bot" |} <> "")
    by discriminate.
  assert (H2 : Resource_Type {| Resource_Namespace := "emojivoto";
                                Resource_Type := K8s.Job;
                                Resource_Name := "vote-bot" |} <> K8s.Service)
    by discriminate.
  split; [exact H1|].
  exact (proj2 (proj2 (proj2 (query_labels_are_grouped _))) H1 H2).
Defined.

(** For destination queries as well: the group-by labels start with
    [dst_namespace], every label filtered on is a group-by label, and none
    is Prometheus' own [job] label, whatever kinds count as non-Kubernetes
    resources. *)
Theorem dst_query_labels_are_grouped (isNonK8sResourceQuery : string -> bool)
    (resource : Resource) :
  promDstGroupByLabelNames isNonK8sResourceQuery resource !! 0
  = Some "dst_namespace"
  /\ dom (promDstQueryLabels isNonK8sResourceQuery resource)
       ⊆ list_to_set (promDstGroupByLabelNames isNonK8sResourceQuery resource)
  /\ promDstQueryLabels isNonK8sResourceQuery resource !! "job" = None.
Proof.
  destruct resource as [ns t n].
  pose proof (l5d_label_not_job t) as Hjob.
  unfold promDstQueryLabels, promDstGroupByLabelNames, shouldAddNamespaceLabel,
    promResourceType, dstNamespaceLabel. simpl.
  split; [|split].
  - repeat match goal with
           | |- context [if ?b then _ else _] => destruct b
           end; reflexivity.
  - apply elem_of_subseteq. intros k. rewrite elem_of_dom, elem_of_list_to_set.
    destruct (isNonK8sResourceQuery t);
      destruct (String.eqb_spec t K8s.Namespace) as [->|Ht]; simpl;
      repeat match goal with
             | |- context [if ?b then _ else _] => destruct b
             end;
      simpl; intros H; label_cases; in_list.
  - repeat match goal with
           | |- context [if ?b then _ else _] => destruct b
           end;
      rewrite ?lookup_insert_ne, ?lookup_empty by done; done.
Qed.

End PromLabelsFacts.

(* --------------------------------------------------------------------- *)
(** ** Choosing the pod of a port-forward *)
(* --------------------------------------------------------------------- *)

Module PortForwardingFacts.
Import PortForwarding.

(** The loop stops at the first running pod whose name has the prefix. *)
Lemma findPodName_first pods deployName :
  (exists before pod after,
     pods = (before ++ pod :: after)%list
     /\ eligible deployName pod
     /\ (forall other, other ∈ before -> ~ eligible deployName other)
     /\ findPodName pods deployName = Pod_Name pod)
  \/ ((forall pod, pod ∈ pods -> ~ eligible deployName pod)
      /\ findPodName pods deployName = "").
Proof.
  induction pods as [|pod pods IH]; simpl.
  - right. split; [|reflexivity]. intros pod Hin. by apply elem_of_nil in Hin.
  - destruct (String.eqb_spec (Pod_Phase pod) PodRunning) as [Hrun|Hrun];
      [destruct (K8s.HasPrefix (Pod_Name pod) deployName) eqn:Hpre|].
    + left. exists [], pod, pods.
      split; [reflexivity | split; [by split | split; [|reflexivity]]].
      intros other Hin. by apply elem_of_nil in Hin.
    + destruct IH as [(before & p & after & -> & Hel & Hfirst & Hname)|[Hnone Hname]].
      * left. exists (pod :: before), p, after.
        split; [reflexivity | split; [exact Hel | split; [|exact Hname]]].
        intros other [->|Hin]%elem_of_cons; [|by apply Hfirst].
        intros Hother. destruct Hother as [_ H]. congruence.
      * right. split; [|exact Hname].
        intros other [->|Hin]%elem_of_cons; [|by apply Hnone].
        intros Hother. destruct Hother as [_ H]. congruence.
    + destruct IH as [(before & p & after & -> & Hel & Hfirst & Hname)|[Hnone Hname]].
      * left. exists (pod :: before), p, after.
        split; [reflexivity | split; [exact Hel | split; [|exact Hname]]].
        intros other [->|Hin]%elem_of_cons; [|by apply Hfirst].
        intros Hother. by destruct Hother as [H _].
      * right. split; [|exact Hname].
        intros other [->|Hin]%elem_of_cons; [|by apply Hnone].
        intros Hother. by destruct Hother as [H _].
Qed.

(** The loop skips every pod before the first one it accepts. *)
Lemma findPodName_at before pod after deployName :
  eligible deployName pod ->
  (forall other, other ∈ before -> ~ eligible deployName other) ->
  findPodName (before ++ pod :: after) deployName = Pod_Name pod.
Proof.
  intros [Hrun Hpre] Hbefore.
  induction before as [|other before IH]; simpl.
  - rewrite Hrun, Hpre. reflexivity.
  - assert (Hskip : ~ eligible deployName other)
      by apply Hbefore, list_elem_of_here.
    assert (IH' : findPodName (before ++ pod :: after) deployName = Pod_Name pod).
    { apply IH. intros o Ho. by apply Hbefore, list_elem_of_further. }
    destruct (String.eqb_spec (Pod_Phase other) PodRunning) as [Ho|Ho];
      [|exact IH'].
    destruct (K8s.HasPrefix (Pod_Name other) deployName) eqn:Hp; [|exact IH'].
    exfalso. apply Hskip. by split.
Qed.

(** When the client libraries answer, a port-forward is set up to the first
    pod of the namespace, in the order listed, that is running and whose
    name starts with the deployment name: with such a pod (of a non-empty
    name) the call succeeds, unless no free local port is found, and its
    URL is the port-forward URL of that pod, the method is POST, the remote
    port is the one given, and the local port is the one given unless that
    is 0, in which case it is the free port found. A port-forward that is
    returned is one to that pod. When no running pod has the prefix the
    call fails with "no running pods found for <deployName>". *)
Theorem port_forward_targets_first_running_pod
    {Config Clientset Client URL : Type}
    (GetConfig : string -> string -> error + Config)
    (NewForConfig : Config -> error + Clientset)
    (NewClient : Config -> error + Client)
    (GetPodsByNamespace : Client -> string -> error + list Pod)
    (portforwardURL : Clientset -> string -> string -> URL)
    (getLocalPort : error + Z)
    (configPath kubeContext namespace deployName : string)
    (localPort remotePort : Z) (emitLogs : bool)
    (config : Config) (clientset : Clientset) (client : Client)
    (pods : list Pod) :
  GetConfig configPath kubeContext = inr config ->
  NewForConfig config = inr clientset ->
  NewClient config = inr client ->
  GetPodsByNamespace client namespace = inr pods ->
  let result :=
    NewPortForward GetConfig NewForConfig NewClient GetPodsByNamespace
      portforwardURL getLocalPort configPath kubeContext namespace deployName
      localPort remotePort emitLogs in
  (forall before pod after,
     pods = (before ++ pod :: after)%list ->
     eligible deployName pod ->
     (forall other, other ∈ before -> ~ eligible deployName other) ->
     Pod_Name pod <> "" ->
     let target port :=
       {| method := "POST";
          url := portforwardURL clientset namespace (Pod_Name pod);
          PortForwarding.localPort := port;
          PortForwarding.remotePort := remotePort;
          PortForwarding.emitLogs := emitLogs;
          PortForwarding.config := config |} in
     (localPort <> 0%Z -> result = (Some (target localPort), None))
     /\ (localPort = 0%Z -> forall port, getLocalPort = inr port ->
         result = (Some (target port), None))
     /\ (localPort = 0%Z -> forall e, getLocalPort = inl e ->
         result = (None, Some e)))
  /\ (forall pf, result.1 = Some pf ->
     result.2 = None
     /\ exists before pod after,
          pods = (before ++ pod :: after)%list
          /\ eligible deployName pod
          /\ (forall other, other ∈ before -> ~ eligible deployName other)
          /\ url pf = portforwardURL clientset namespace (Pod_Name pod)
          /\ method pf = "POST"
          /\ PortForwarding.remotePort pf = remotePort
          /\ (localPort <> 0%Z -> PortForwarding.localPort pf = localPort)
          /\ (localPort = 0%Z -> getLocalPort = inr (PortForwarding.localPort pf)))
  /\ ((forall pod, pod ∈ pods -> ~ eligible deployName pod) ->
      result = (None, Some ("no running pods found for " ++ deployName))).
Proof.
  intros Hc Hcs Hcl Hpods result. subst result. unfold NewPortForward.
  rewrite Hc, Hcs, Hcl, Hpods. split.
  { intros before pod after -> Hel Hfirst Hname. cbv zeta.
    rewrite (findPodName_at before pod after deployName Hel Hfirst).
    destruct (String.eqb_spec (Pod_Name pod) "") as [|_]; [done|].
    split; [|split].
    - intros Hz. by rewrite (proj2 (Z.eqb_neq localPort 0) Hz).
    - intros -> port ->. reflexivity.
    - intros -> e ->. reflexivity. }
  destruct (findPodName_first pods deployName)
    as [(before & pod & after & Hsplit & Hel & Hfirst & Hname)|[Hnone Hname]];
    rewrite Hname.
  - split.
    + destruct (String.eqb_spec (Pod_Name pod) ""); [discriminate|].
      intros pf Hpf.
      destruct (Z.eqb_spec localPort 0) as [Hz|Hz].
      * destruct getLocalPort as [e|port]; [discriminate|].
        simpl in Hpf. injection Hpf as <-. split; [reflexivity|].
        exists before, pod, after.
        split; [exact Hsplit | split; [exact Hel | split; [exact Hfirst|]]].
        simpl. repeat split; try done.
      * simpl in Hpf. injection Hpf as <-. split; [reflexivity|].
        exists before, pod, after.
        split; [exact Hsplit | split; [exact Hel | split; [exact Hfirst|]]].
        simpl. repeat split; try done.
    + intros Hno. exfalso. apply (Hno pod); [|exact Hel].
      rewrite Hsplit. apply elem_of_app. right. apply list_elem_of_here.
  - simpl. split; [discriminate | done].
Qed.

Lemma port_forward_targets_first_running_pod_witness :
  NewPortForward (fun _ _ => inr tt) (fun _ => inr tt) (fun _ => inr tt)
    (fun _ _ => inr example_pods)
    (fun (_ : unit) namespace pod =>
       "/api/v1/namespaces/" ++ namespace ++ "/pods/" ++ pod ++ "/portforward")
    (inr 49152%Z) "" "" "linkerd" "linkerd-web" 0 8084 false
  = (Some {| method := "POST";
             url := "/api/v1/namespaces/" ++ "linkerd" ++ "/pods/"
                    ++ "linkerd-web-5c8b5d9c4-fghij" ++ "/portforward";
             localPort := 49152;
             remotePort := 8084;
             emitLogs := false;
             config := tt |},
     None).
Proof.
  assert (Hno : forall other,
            other ∈ [ {| Pod_Name := "linkerd-web-5c8b5d9c4-abcde";
                         Pod_Phase := "Pending" |};
                      {| Pod_Name := "linkerd-controller-7d9f-xyz12";
                         Pod_Phase := "Running" |} ] ->
            ~ eligible "linkerd-web" other).
  { intros other Hin [Hrun Hpre].
    apply elem_of_cons in Hin as [->|Hin]; [discriminate Hrun|].
    apply elem_of_cons in Hin as [->|Hin]; [discriminate Hpre|].
    by apply elem_of_nil in Hin. }
  exact (proj1 (proj2 (proj1 (port_forward_targets_first_running_pod
                  (fun _ _ => inr tt) (fun _ => inr tt) (fun _ => inr tt)
                  (fun _ _ => inr example_pods)
                  (fun (_ : unit) namespace pod =>
                     "/api/v1/namespaces/" ++ namespace ++ "/pods/" ++ pod
                     ++ "/portforward")
                  (inr 49152%Z) "" "" "linkerd" "linkerd-web" 0 8084 false
                  tt tt tt example_pods eq_refl eq_refl eq_refl eq_refl)
                  [ {| Pod_Name := "linkerd-web-5c8b5d9c4-abcde";
                       Pod_Phase := "Pending" |};
                    {| Pod_Name := "linkerd-controller-7d9f-xyz12";
                       Pod_Phase := "Running" |} ]
                  {| Pod_Name := "linkerd-web-5c8b5d9c4-fghij";
                     Pod_Phase := "Running" |}
                  [ {| Pod_Name := "linkerd-web-5c8b5d9c4-klmno";
                       Pod_Phase := "Running" |} ]
                  eq_refl (conj eq_refl eq_refl) Hno ltac:(discriminate)))
           eq_refl 49152%Z eq_refl).
Defined.

End PortForwardingFacts.
